(** * fastrand: a hash-counter pseudorandom generator (Go), embedded in Rocq

    The development follows [fastrand.go]:

    - a small model of the Go runtime facts the package relies on: byte
      slices as views (pointer, offset, length, capacity) into backing
      arrays held in a store, with [make], re-slicing, [copy], [append]
      and the raw 64-bit loads and stores done through [unsafe.Pointer];
    - the [randReader] structure, its [Read] method and the initialiser of
      the global [Reader];
    - the sampling helpers [Bytes], [Intn], [BigIntn] and [Perm].

    The hash (blake2b-256) is a parameter: a function from the bytes written
    into the hash state to a digest.  Loops that Go runs until a condition
    holds take a fuel argument; running out of fuel is the outcome [Spin].

    Machine model: [int] is 64 bits wide and memory is little-endian (amd64),
    which is what the [unsafe] casts of the source assume. *)

From Stdlib Require Import ZArith Lia String.
From stdpp Require Import base list.
From coqutil Require Import Byte Word.LittleEndianList.

Local Open Scope Z_scope.

(** ** Machine integers *)

Definition MaxUint64 : Z := 2 ^ 64 - 1.
Definition MaxInt : Z := 2 ^ 63 - 1.
Definition MinInt : Z := - 2 ^ 63.

(** The conversion [uint64(n)] of an [int]. *)
Definition uint64 (n : Z) : Z := n mod 2 ^ 64.

(** The conversion [int(u)] of a [uint64]: same bits, read as signed. *)
Definition int (u : Z) : Z :=
  let v := u mod 2 ^ 64 in if v <? 2 ^ 63 then v else v - 2 ^ 64.

Definition is_int (n : Z) : Prop := MinInt <= n <= MaxInt.

(** ** Slices, the store, and the reader structure *)

Record slice := mkSlice { ptr : nat; off : nat; len : nat; cap : nat }.

(** The [nil] slice: address 0, which the store reserves for an empty array. *)
Definition nil_slice : slice := mkSlice 0 0 0 0.

(** [h] is the state of the hash: the bytes written since the last [Reset].
    [mu] is the mutex: [true] while it is held. *)
Record randReader := mkReader {
  entropy : slice;
  h : list byte;
  buf : slice;
  mu : bool
}.

Record world := mkWorld {
  mem : list (list byte);
  Reader : randReader
}.

Definition with_mem (w : world) (m : list (list byte)) : world :=
  mkWorld m (Reader w).
Definition with_Reader (w : world) (r : randReader) : world :=
  mkWorld (mem w) r.

Definition set_entropy (r : randReader) (s : slice) : randReader :=
  mkReader s (h r) (buf r) (mu r).
Definition set_h (r : randReader) (d : list byte) : randReader :=
  mkReader (entropy r) d (buf r) (mu r).
Definition set_buf (r : randReader) (s : slice) : randReader :=
  mkReader (entropy r) (h r) s (mu r).
Definition set_mu (r : randReader) (b : bool) : randReader :=
  mkReader (entropy r) (h r) (buf r) b.

(** The store before any package-level initialiser has run. *)
Definition boot : world :=
  mkWorld [[]] (mkReader nil_slice [] nil_slice false).

(** ** Outcomes and the state monad *)

Inductive outcome (A : Type) : Type :=
| Ok (a : A) (w : world)
| Panic (msg : string)
| Spin.
Arguments Ok {A} a w.
Arguments Panic {A} msg.
Arguments Spin {A}.

Definition M (A : Type) : Type := world -> outcome A.

Definition ret {A} (a : A) : M A := fun w => Ok a w.
Definition bind {A B} (m : M A) (k : A -> M B) : M B :=
  fun w => match m w with
           | Ok a w' => k a w'
           | Panic msg => Panic msg
           | Spin => Spin
           end.
Definition panic {A} (msg : string) : M A := fun _ => Panic msg.
Definition spin {A} : M A := fun _ => Spin.
Definition get : M world := fun w => Ok w w.
Definition modify (f : world -> world) : M unit := fun w => Ok tt (f w).

Notation "'let*' x ':=' m 'in' k" := (bind m (fun x => k))
  (at level 10, x name, m at level 100, k at level 200).
Notation "m1 '>>' m2" := (bind m1 (fun _ => m2))
  (at level 100, m2 at level 200, right associativity).

Definition panics {A} (o : outcome A) : Prop :=
  match o with Panic _ => True | _ => False end.

(** ** Go's slice operations *)

Definition array_of (w : world) (p : nat) : list byte :=
  default [] (mem w !! p).

(** What a slice shows: [len] bytes of its array from [off] on. *)
Definition contents (w : world) (s : slice) : list byte :=
  take (len s) (drop (off s) (array_of w (ptr s))).

Definition splice (o : nat) (data arr : list byte) : list byte :=
  take o arr ++ data ++ drop (o + length data) arr.

(** Raw reads and writes of [n] bytes at [&s[i]].  An access that leaves the
    backing array is a fault, reported as a panic. *)
Definition peek (s : slice) (i n : nat) : M (list byte) := fun w =>
  let a := array_of w (ptr s) in
  if (off s + i + n <=? length a)%nat
  then Ok (take n (drop (off s + i) a)) w
  else Panic "fault: read outside the backing array".

Definition poke (s : slice) (i : nat) (data : list byte) : M unit := fun w =>
  let a := array_of w (ptr s) in
  if (off s + i + length data <=? length a)%nat
  then Ok tt (with_mem w (<[ptr s := splice (off s + i) data a]> (mem w)))
  else Panic "fault: write outside the backing array".

(** The runtime's limit on the size in bytes of one allocation, [maxAlloc]:
    [2^48] on the 64-bit platforms (48 bits of heap address). *)
Definition maxAlloc : Z := 2 ^ 48.

(** [make([]byte, n)].  The runtime's [makeslice] panics when the length is
    negative or the size asked for exceeds [maxAlloc].  Below that limit the
    store always has room: running out of memory, which the runtime reports
    as a fatal error and not as a panic, is outside the model. *)
Definition make (n : Z) : M slice := fun w =>
  if (n <? 0) || (maxAlloc <? n) then Panic "makeslice: len out of range"
  else Ok (mkSlice (length (mem w)) 0 (Z.to_nat n) (Z.to_nat n))
          (with_mem w (mem w ++ [repeat Byte.x00 (Z.to_nat n)])).

(** [s[lo:hi]] *)
Definition reslice (s : slice) (lo hi : nat) : M slice :=
  if ((lo <=? hi) && (hi <=? cap s))%nat
  then ret (mkSlice (ptr s) (off s + lo) (hi - lo) (cap s - lo))
  else panic "slice bounds out of range".

(** The bounds check of [&s[i]]. *)
Definition index (s : slice) (i : nat) : M unit :=
  if (i <? len s)%nat then ret tt else panic "index out of range".

(** The 64-bit word at [&s[i]], read and written through [unsafe.Pointer]. *)
Definition load64 (s : slice) (i : nat) : M Z :=
  index s i >>
  let* bs := peek s i 8 in
  ret (le_combine bs).

Definition store64 (s : slice) (i : nat) (v : Z) : M unit :=
  index s i >> poke s i (le_split 8 v).

(** [copy(dst, src)]: the source bytes are read before any is written. *)
Definition copy (dst src : slice) : M nat :=
  let* data := peek src 0 (Nat.min (len dst) (len src)) in
  poke dst 0 data >>
  ret (length data).

(** [append(s, data...)]: in place when the capacity allows, otherwise into a
    fresh array, leaving the old one as it was.  The fresh array is given the
    capacity it needs and no more; the package never relies on spare room. *)
Definition append (s : slice) (data : list byte) : M slice :=
  if (len s + length data <=? cap s)%nat
  then poke s (len s) data >>
       ret (mkSlice (ptr s) (off s) (len s + length data) (cap s))
  else let* old := peek s 0 (len s) in
       fun w => Ok (mkSlice (length (mem w)) 0 (len s + length data)
                            (len s + length data))
                   (with_mem w (mem w ++ [old ++ data])).

(** ** sync.Mutex *)

Definition mu_Lock : M unit := fun w =>
  if mu (Reader w) then Spin
  else Ok tt (with_Reader w (set_mu (Reader w) true)).

Definition mu_Unlock : M unit := fun w =>
  if mu (Reader w) then Ok tt (with_Reader w (set_mu (Reader w) false))
  else Panic "sync: unlock of unlocked mutex".

(** ** The package *)

Section Fastrand.

(** blake2b-256 as a function of the bytes written into the hash state. *)
Variable sum256 : list byte -> list byte.

(** *** hash.Hash *)

Definition h_Reset : M unit :=
  modify (fun w => with_Reader w (set_h (Reader w) [])).

Definition h_Write (p : slice) : M unit :=
  let* data := peek p 0 (len p) in
  modify (fun w => with_Reader w (set_h (Reader w) (h (Reader w) ++ data))).

(** [Sum(b)] appends the digest of what was written to [b] and returns the
    resulting slice; the hash state is left as it is. *)
Definition h_Sum (b : slice) : M slice :=
  let* w := get in append b (sum256 (h (Reader w))).

(** [io.CopyN(r.h, rand.Reader, n)], with [src] the bytes the system source
    delivers: it reports an error when fewer than [n] could be copied. *)
Definition CopyN (src : list byte) (n : nat) : M (nat * bool) :=
  modify (fun w =>
    with_Reader w (set_h (Reader w) (h (Reader w) ++ take n src))) >>
  ret (length (take n src), (length src <? n)%nat).

(** *** randReader.Read *)

(** "Increment counter": the two 64-bit words at [&entropy[0]] and
    [&entropy[8]], the second one bumped when the first wraps to zero. *)
Definition counter_incr (e : slice) : M unit :=
  let* x := load64 e 0 in
  store64 e 0 ((x + 1) mod 2 ^ 64) >>
  let* y := load64 e 0 in
  if y =? 0
  then let* z := load64 e 8 in
       store64 e 8 ((z + 1) mod 2 ^ 64)
  else ret tt.

(** "Hash the counter + initial seed": [Reset], [Write(entropy)], and
    [buf = Sum(buf[:0])]. *)
Definition rehash : M unit :=
  h_Reset >>
  let* r := get in
  h_Write (entropy (Reader r)) >>
  let* b0 := reslice (buf (Reader r)) 0 0 in
  let* s := h_Sum b0 in
  modify (fun w => with_Reader w (set_buf (Reader w) s)).

(** "Fill out 'b'": [copy(b[n:], buf[:])]. *)
Definition fill (b : slice) (n : nat) : M nat :=
  let* bn := reslice b n (len b) in
  let* r := get in
  let* bf := reslice (buf (Reader r)) 0 (len (buf (Reader r))) in
  copy bn bf.

(** The body of the loop of [Read], with [n] bytes of [b] already filled;
    it returns the new [n]. *)
Definition Read_body (b : slice) (n : nat) : M nat :=
  let* r := get in
  counter_incr (entropy (Reader r)) >>
  rehash >>
  let* k := fill b n in
  ret (n + k)%nat.

Fixpoint Read_loop (fuel : nat) (b : slice) (n : nat) : M nat :=
  if (n <? len b)%nat then
    match fuel with
    | O => spin
    | S fuel' => let* n' := Read_body b n in Read_loop fuel' b n'
    end
  else ret n.

(** [Read] returns the count and the error; [None] is Go's [nil] error. *)
Definition randReader_Read (fuel : nat) (b : slice) : M (nat * option string) :=
  mu_Lock >>
  let* n := Read_loop fuel b 0 in
  mu_Unlock >>
  ret (n, None).

(** *** The initialiser of the global [Reader] *)

Definition Reader_init (src : list byte) : M unit :=
  modify (fun w => with_Reader w (mkReader nil_slice [] nil_slice false)) >>
  (* Use 64 bytes in case the first 32 aren't completely random. *)
  let* ne := CopyN src 64 in
  if snd ne then panic "crypto: no entropy available" else
  let* e := make (16 + 32) in
  modify (fun w => with_Reader w (set_entropy (Reader w) e)) >>
  let* r := get in
  let* e16 := reslice (entropy (Reader r)) 16 (len (entropy (Reader r))) in
  let* _ := h_Sum e16 in
  ret tt.

(** *** Read, Bytes, Intn *)

Definition Read (fuel : nat) (b : slice) : M unit :=
  let* _ := randReader_Read fuel b in ret tt.

Definition Bytes (fuel : nat) (n : Z) : M slice :=
  let* b := make n in
  Read fuel b >>
  ret b.

(** [max] as [Intn] computes it, in [uint64] arithmetic. *)
Definition Intn_max (n : Z) : Z :=
  (MaxUint64 - MaxUint64 mod uint64 n) mod 2 ^ 64.

Fixpoint Intn_loop (fuel : nat) (n max : Z) (b : slice) (r : Z) : M Z :=
  if max <=? r then
    match fuel with
    | O => spin
    | S fuel' =>
        Read fuel b >>
        let* r' := load64 b 0 in
        Intn_loop fuel' n max b r'
    end
  else ret (int (r mod uint64 n)).

Definition Intn (fuel : nat) (n : Z) : M Z :=
  if n <=? 0 then panic "fastrand: argument to Intn is <= 0" else
  let max := Intn_max n in
  let* b := Bytes fuel 8 in
  let* r := load64 b 0 in
  Intn_loop fuel n max b r.

(** *** BigIntn *)

(** Modelled from the spec: the number of bytes [rand.Int] of Go's
    [crypto/rand] draws for a bound, as many as the largest value below the
    bound needs.  [crypto/rand] is not part of this package, and the spec
    leaves "how many extra bits it draws" open. *)
Definition byte_len (v : Z) : Z :=
  if v <=? 0 then 0 else (Z.log2 v + 8) / 8.

(** Modelled from the spec: the loop of [rand.Int], which "performs its own
    rejection sampling internally using the Generator as its byte source":
    it fills [bytes] from the reader it is given and redraws until the value
    read is below the bound.  A reader that reports an error ends it with no
    value and that error. *)
Fixpoint rand_Int_loop (fuel : nat)
    (read : nat -> slice -> M (nat * option string))
    (max : Z) (bytes : slice) : M (option Z * option string) :=
  match fuel with
  | O => spin
  | S fuel' =>
      let* ne := read fuel bytes in
      match snd ne with
      | Some err => ret (None, Some err)
      | None =>
          let* data := peek bytes 0 (len bytes) in
          if le_combine data <? max
          then ret (Some (le_combine data), None)
          else rand_Int_loop fuel' read max bytes
      end
  end.

(** Modelled from the spec: [rand.Int(rand, max)], the "arbitrary-precision
    sampling primitive" to which [BigIntn] delegates, which "fails/aborts if
    n <= 0" and otherwise samples by rejection. *)
Definition rand_Int (fuel : nat)
    (read : nat -> slice -> M (nat * option string))
    (max : Z) : M (option Z * option string) :=
  if max <=? 0 then panic "crypto/rand: argument to Int is <= 0" else
  let* bytes := make (byte_len (max - 1)) in
  rand_Int_loop fuel read max bytes.

(** [i, _ := rand.Int(Reader, n); return i].  The result is a [*big.Int];
    [None] is the [nil] pointer. *)
Definition BigIntn (fuel : nat) (n : Z) : M (option Z) :=
  let* ie := rand_Int fuel randReader_Read n in
  ret (fst ie).

(** *** Perm *)

(** [m] is local to [Perm] until it is returned and no other slice shares
    its array, so it is kept as the list of its elements; indexing checks
    the bounds as the runtime does.  [make([]int, n)] asks for [8 * n]
    bytes and panics as [make] does. *)
Definition make_ints (n : Z) : M (list Z) :=
  if (n <? 0) || (maxAlloc <? 8 * n) then panic "makeslice: len out of range"
  else ret (replicate (Z.to_nat n) 0).

Definition ints_get (m : list Z) (i : Z) : M Z :=
  if (0 <=? i) && (i <? Z.of_nat (length m))
  then match m !! Z.to_nat i with
       | Some v => ret v
       | None => panic "index out of range"
       end
  else panic "index out of range".

Definition ints_set (m : list Z) (i : Z) (v : Z) : M (list Z) :=
  if (0 <=? i) && (i <? Z.of_nat (length m))
  then ret (<[Z.to_nat i := v]> m)
  else panic "index out of range".

(** The loop [for i := 1; i < n; i++], entered with the current [i]. *)
Fixpoint Perm_loop (fuel : nat) (n i : Z) (m : list Z) : M (list Z) :=
  if i <? n then
    match fuel with
    | O => spin
    | S fuel' =>
        let* j := Intn fuel (int (i + 1)) in
        let* v := ints_get m j in
        let* m := ints_set m i v in
        let* m := ints_set m j i in
        Perm_loop fuel' n (int (i + 1)) m
    end
  else ret m.

Definition Perm (fuel : nat) (n : Z) : M (list Z) :=
  let* m := make_ints n in
  Perm_loop fuel n 1 m.

End Fastrand.

(** ** What one run of the loop body computes *)

(** The entropy array after "Increment counter", as a function of the array
    before: the code of [counter_incr] read off on the bytes. *)
Definition incr_counter (ent : list byte) : list byte :=
  let ent1 := splice 0 (le_split 8 ((le_combine (take 8 ent) + 1) mod 2 ^ 64)) ent in
  if le_combine (take 8 ent1) =? 0
  then splice 8 (le_split 8 ((le_combine (take 8 (drop 8 ent1)) + 1) mod 2 ^ 64)) ent1
  else ent1.

(** The digests of [k] successive runs of the body, from entropy [ent]. *)
Fixpoint keystream (sum256 : list byte -> list byte) (k : nat) (ent : list byte)
    : list byte :=
  match k with
  | O => []
  | S k' => sum256 (incr_counter ent) ++ keystream sum256 k' (incr_counter ent)
  end.

(** Digests needed for [L] bytes. *)
Definition blocks (L : nat) : nat := ((L + 31) / 32)%nat.

(** ** Well-formed states *)

(** A slice lies within an allocated array. *)
Definition valid (w : world) (s : slice) : Prop :=
  (ptr s < length (mem w))%nat /\
  (off s + cap s <= length (array_of w (ptr s)))%nat /\
  (len s <= cap s)%nat.

(** The states the package is in between calls, once [Reader] is set up:
    [entropy] is the whole of a 48-byte array, [buf] is [nil] or a slice of
    another array. *)
Definition wf (w : world) : Prop :=
  off (entropy (Reader w)) = 0%nat /\
  len (entropy (Reader w)) = 48%nat /\
  cap (entropy (Reader w)) = 48%nat /\
  length (array_of w (ptr (entropy (Reader w)))) = 48%nat /\
  valid w (buf (Reader w)) /\
  ptr (buf (Reader w)) <> ptr (entropy (Reader w)).

(** A caller's slice shares no array with the reader's private slices. *)
Definition apart (w : world) (b : slice) : Prop :=
  len b = 0%nat \/
  (ptr b <> ptr (entropy (Reader w)) /\ ptr b <> ptr (buf (Reader w))).

(** What every run of the package keeps for a caller's slice [b]: the
    state stays well formed, [b] stays valid and apart, the reader still uses
    the same entropy slice with the same seed bytes, the mutex is as it was,
    and no array is freed. *)
Definition kept (w w' : world) (b : slice) : Prop :=
  wf w' /\ valid w' b /\ apart w' b /\
  entropy (Reader w') = entropy (Reader w) /\
  mu (Reader w') = mu (Reader w) /\
  drop 16 (array_of w' (ptr (entropy (Reader w)))) =
    drop 16 (array_of w (ptr (entropy (Reader w)))) /\
  (length (mem w) <= length (mem w'))%nat.

(** What a caller of the package sees kept: the reader is well formed and
    unlocked, with the same entropy slice and the same seed bytes. *)
Definition steady (w w' : world) : Prop :=
  wf w' /\ mu (Reader w') = false /\
  entropy (Reader w') = entropy (Reader w) /\
  drop 16 (array_of w' (ptr (entropy (Reader w)))) =
    drop 16 (array_of w (ptr (entropy (Reader w)))) /\
  (length (mem w) <= length (mem w'))%nat.

(** [Perm], before the iteration for [i]: the first [i] cells hold a
    rearrangement of [0, i), the cells from [i] on still hold the zero that
    [make] put there. *)
Definition perm_inv (n i : Z) (m : list Z) : Prop :=
  length m = Z.to_nat n /\
  1 <= i <= n /\
  take (Z.to_nat i) m ≡ₚ seqZ 0 i /\
  drop (Z.to_nat i) m = replicate (Z.to_nat (n - i)) 0.

(** The value a run returns, if it returns. *)
Definition value {A} (o : outcome A) : option A :=
  match o with Ok a _ => Some a | _ => None end.

(** ** What a call leaves alone, and the draw [Intn] returns *)

(** What a run of [Read] on [b] leaves alone in the store: the bytes of
    [b]'s array before and after the window [b[0:len(b)]], and every array
    other than those of [b], [entropy] and [buf]; [buf] itself stays where
    it was or moves to an array allocated since. *)
Definition framed (w w' : world) (b : slice) : Prop :=
  length (array_of w' (ptr b)) = length (array_of w (ptr b)) /\
  take (off b) (array_of w' (ptr b)) = take (off b) (array_of w (ptr b)) /\
  drop (off b + len b) (array_of w' (ptr b)) =
    drop (off b + len b) (array_of w (ptr b)) /\
  (forall p, (p < length (mem w))%nat ->
             p <> ptr (entropy (Reader w)) -> p <> ptr b ->
             p <> ptr (buf (Reader w)) ->
             array_of w' p = array_of w p) /\
  (ptr (buf (Reader w')) = ptr (buf (Reader w)) \/
   (length (mem w) <= ptr (buf (Reader w')))%nat).

(** The rejection loop of [Intn] on the keystream: the first of the next
    [tries] draws that is below [max], with the entropy buffer it leaves.
    A draw is the first 8 bytes of the next digest, read little-endian. *)
Fixpoint first_accepted (sum256 : list byte -> list byte) (tries : nat)
    (max : Z) (ent : list byte) : option (Z * list byte) :=
  match tries with
  | O => None
  | S tries' =>
      let ent' := incr_counter ent in
      let r := le_combine (take 8 (sum256 ent')) in
      if max <=? r then first_accepted sum256 tries' max ent'
      else Some (r, ent')
  end.

(** The [k]-th draw of [Intn] from entropy [ent], counting from 0: the
    first 8 bytes, read little-endian, of the digest of the buffer after
    [k + 1] increments of the counter. *)
Definition draw (sum256 : list byte -> list byte) (ent : list byte)
    (k : nat) : Z :=
  le_combine (take 8 (sum256 (Nat.iter (S k) incr_counter ent))).

(** ** A stand-in digest, to run the model

    Not blake2b: any function with 32-byte results serves to execute the
    definitions above on concrete inputs. *)
Definition demo_sum256 (d : list byte) : list byte :=
  let x := le_combine d + 1 in
  let y := (x * 0x9E3779B97F4A7C15F39CC0605CEDC8341082276BF3A27251F86C6A11D0C18E95)
             mod 2 ^ 256 in
  let z := Z.lxor y (Z.shiftr y 131) in
  let u := (z * 0xD6E8FEB86659FD93C2B2AE3D27D4EB4F165667B19E3779F985EBCA77C2B2AE63)
             mod 2 ^ 256 in
  le_split 32 (Z.lxor u (Z.shiftr u 67)).

(** A digest that makes [Intn] reject its first draw: all ones when the
    counter stands at 1, the stand-in digest otherwise. *)
Definition demo_reject (d : list byte) : list byte :=
  if le_combine (take 16 d) =? 1 then repeat Byte.xff 32 else demo_sum256 d.

Definition demo_src : list byte := repeat Byte.x2a 64.

(** The state after the initialiser has run on [demo_src]. *)
Definition demo_world : world :=
  match Reader_init demo_sum256 demo_src boot with
  | Ok _ w => w
  | _ => boot
  end.

(** A caller's 40-byte buffer, allocated in [demo_world]. *)
Definition demo_b : slice := mkSlice 3 0 40 40.
Definition demo_world_b : world :=
  with_mem demo_world (mem demo_world ++ [repeat Byte.x00 40]).

(** ** Machine arithmetic of [Intn] *)

Lemma uint64_of_pos (n : Z) : 0 < n <= MaxInt -> uint64 n = n.
Proof. unfold uint64, MaxInt. intros H. apply Z.mod_small. lia. Qed.

Lemma int_of_small (v : Z) : 0 <= v <= MaxInt -> int v = v.
Proof.
  unfold int, MaxInt. intros H. rewrite Z.mod_small by lia.
  destruct (Z.ltb_spec v (2 ^ 63)); lia.
Qed.

Lemma Intn_max_eq (n : Z) :
  0 < n <= MaxInt -> Intn_max n = MaxUint64 - MaxUint64 mod n.
Proof.
  intros H. unfold Intn_max. rewrite uint64_of_pos by done.
  pose proof (Z.mod_pos_bound MaxUint64 n ltac:(lia)) as Hm.
  unfold MaxUint64, MaxInt in *. apply Z.mod_small. lia.
Qed.

Lemma Intn_max_div (n : Z) :
  0 < n <= MaxInt -> Intn_max n = n * (MaxUint64 / n).
Proof.
  intros H. rewrite Intn_max_eq by done.
  pose proof (Z.div_mod MaxUint64 n ltac:(lia)). lia.
Qed.

Lemma Intn_max_bounds (n : Z) :
  0 < n <= MaxInt -> n <= Intn_max n <= MaxUint64 /\ MaxUint64 < Intn_max n + n.
Proof.
  intros H. rewrite Intn_max_eq by done.
  pose proof (Z.mod_pos_bound MaxUint64 n ltac:(lia)) as Hm.
  unfold MaxUint64, MaxInt in *. lia.
Qed.

Lemma Intn_max_vs_W (n : Z) :
  0 < n <= MaxInt ->
  Intn_max n = if 2 ^ 64 mod n =? 0 then 2 ^ 64 - n else 2 ^ 64 - 2 ^ 64 mod n.
Proof.
  intros H. rewrite Intn_max_eq by done.
  pose proof (Z.div_mod (2 ^ 64) n ltac:(lia)) as HW.
  pose proof (Z.mod_pos_bound (2 ^ 64) n ltac:(lia)) as Hm.
  unfold MaxUint64.
  destruct (Z.eqb_spec (2 ^ 64 mod n) 0) as [E | E].
  - rewrite <- (Z.mod_unique (2 ^ 64 - 1) n (2 ^ 64 / n - 1) (n - 1)); lia.
  - rewrite <- (Z.mod_unique (2 ^ 64 - 1) n (2 ^ 64 / n) (2 ^ 64 mod n - 1)); lia.
Qed.

Lemma Intn_result (n r : Z) :
  0 < n <= MaxInt -> 0 <= r < 2 ^ 64 ->
  int (r mod uint64 n) = r mod n /\ 0 <= r mod n < n.
Proof.
  intros Hn Hr. rewrite uint64_of_pos by done.
  pose proof (Z.mod_pos_bound r n ltac:(lia)) as Hm.
  split; [|done]. apply int_of_small. lia.
Qed.

(** The draws below [max] that land on residue [k] are the [q * n + k]
    with [q] below [max / n]. *)
Lemma residue_class (n k r : Z) :
  0 < n <= MaxInt -> 0 <= k < n ->
  (0 <= r < Intn_max n /\ r mod n = k) <->
  (exists q, 0 <= q < Intn_max n / n /\ r = q * n + k).
Proof.
  intros Hn Hk. rewrite (Intn_max_div n Hn).
  replace (n * (MaxUint64 / n) / n) with (MaxUint64 / n)
    by (rewrite Z.mul_comm, Z.div_mul; lia).
  assert (0 <= MaxUint64 / n) as Hq by (apply Z.div_pos; unfold MaxUint64; lia).
  split.
  - intros ([Hr0 Hr1] & Hmod). exists (r / n).
    pose proof (Z.div_mod r n ltac:(lia)) as Hdm.
    assert (0 <= r / n) by (apply Z.div_pos; lia).
    split; [|lia]. split; [done|]. nia.
  - intros (q & [Hq0 Hq1] & ->). split; [nia|].
    rewrite Z.add_comm, Z.mod_add by lia. apply Z.mod_small. done.
Qed.

(** ** Bytes and little-endian words *)

Lemma le_combine_cons (x : byte) (t : list byte) :
  le_combine (x :: t) = byte.unsigned x + 2 ^ 8 * le_combine t.
Proof.
  change (le_combine (x :: t))
    with (Z.lor (byte.unsigned x) (Z.shiftl (le_combine t) 8)).
  pose proof (byte.unsigned_range x) as Hx.
  pose proof (le_combine_bound t) as Ht.
  rewrite Z.shiftl_mul_pow2 by lia.
  rewrite <- Z.add_nocarry_lor.
  - lia.
  - apply Z.bits_inj'. intros i Hi. rewrite Z.land_spec, Z.bits_0.
    destruct (Z.lt_ge_cases i 8) as [Hlt | Hge].
    + rewrite (Z.mul_pow2_bits_low _ _ _ Hlt). apply andb_false_r.
    + assert (Z.testbit (byte.unsigned x) i = false) as ->; [|reflexivity].
      destruct (Z.eq_dec (byte.unsigned x) 0) as [-> | Hne];
        [apply Z.bits_0|].
      apply Z.bits_above_log2; [lia|].
      apply Z.log2_lt_pow2; [lia|].
      apply Z.lt_le_trans with (2 ^ 8); [lia|].
      apply Z.pow_le_mono_r; lia.
Qed.

Lemma le_combine_add (a b : list byte) :
  le_combine (a ++ b) = le_combine a + 2 ^ (8 * Z.of_nat (length a)) * le_combine b.
Proof.
  induction a as [|x a IH]; simpl app.
  - change (le_combine []) with 0. simpl. lia.
  - rewrite !le_combine_cons, IH.
    replace (8 * Z.of_nat (length (x :: a))) with (8 + 8 * Z.of_nat (length a))
      by (simpl length; lia).
    rewrite Z.pow_add_r by lia. ring.
Qed.

Lemma length_splice (o : nat) (d a : list byte) :
  (o + length d <= length a)%nat -> length (splice o d a) = length a.
Proof.
  intros Hle. unfold splice.
  rewrite !length_app, length_take, length_drop. lia.
Qed.

Lemma splice_app3 (a d' d c : list byte) :
  length d' = length d -> splice (length a) d' (a ++ d ++ c) = a ++ d' ++ c.
Proof.
  intros Hlen. unfold splice.
  rewrite take_app_length. do 2 f_equal.
  rewrite drop_app_add, Hlen. apply drop_app_length.
Qed.

Lemma split3 (o n : nat) (a : list byte) :
  (o + n <= length a)%nat ->
  a = take o a ++ take n (drop o a) ++ drop (o + n) a /\
  length (take o a) = o /\ length (take n (drop o a)) = n.
Proof.
  intros Hle. split; [|split].
  - rewrite <- (take_drop o a) at 1. f_equal.
    rewrite <- (take_drop n (drop o a)) at 1. f_equal.
    apply drop_drop.
  - rewrite length_take. lia.
  - rewrite length_take, length_drop. lia.
Qed.

(** Writing [d] at offset [o0 + i] of [a], as seen through the window of
    [L] bytes that starts at [o0], when the window covers the write. *)
Lemma window_splice (o0 L i : nat) (d a : list byte) :
  (i + length d <= L)%nat -> (o0 + L <= length a)%nat ->
  take L (drop o0 (splice (o0 + i) d a)) =
  take i (take L (drop o0 a)) ++ d ++ drop (i + length d) (take L (drop o0 a)).
Proof.
  intros Hd Ha.
  destruct (split3 o0 L a Ha) as (Ea & HP & HW).
  set (W := take L (drop o0 a)) in *.
  set (P := take o0 a) in *. set (Q := drop (o0 + L) a) in *.
  assert (i + length d <= length W)%nat as HdW by lia.
  destruct (split3 i (length d) W HdW) as (EW & HW0 & HW1).
  set (W0 := take i W) in *. set (W1 := take (length d) (drop i W)) in *.
  set (W2 := drop (i + length d) W) in *.
  assert (length W2 = L - i - length d)%nat as HW2
    by (subst W2; rewrite length_drop; lia).
  rewrite Ea, EW.
  replace (P ++ (W0 ++ W1 ++ W2) ++ Q) with ((P ++ W0) ++ W1 ++ (W2 ++ Q))
    by (rewrite <- !app_assoc; reflexivity).
  replace (o0 + i)%nat with (length (P ++ W0)) by (rewrite length_app; lia).
  rewrite splice_app3 by lia.
  rewrite <- app_assoc, drop_app_length' by lia.
  rewrite !app_assoc. rewrite take_app_length'; [reflexivity|].
  rewrite !length_app. lia.
Qed.

(** *** The counter *)

Lemma incr_counter_app (lo hi seed : list byte) :
  length lo = 8%nat -> length hi = 8%nat ->
  incr_counter (lo ++ hi ++ seed) =
  le_split 8 ((le_combine lo + 1) mod 2 ^ 64) ++
  (if (le_combine lo + 1) mod 2 ^ 64 =? 0
   then le_split 8 ((le_combine hi + 1) mod 2 ^ 64) else hi) ++ seed.
Proof.
  intros Hlo Hhi. unfold incr_counter.
  rewrite (take_app_length' lo) by done.
  set (lo' := le_split 8 ((le_combine lo + 1) mod 2 ^ 64)).
  assert (length lo' = 8%nat) as Hlo' by apply length_le_split.
  assert (splice 0 lo' (lo ++ hi ++ seed) = lo' ++ hi ++ seed) as ->.
  { apply (splice_app3 [] lo' lo (hi ++ seed)). lia. }
  rewrite (take_app_length' lo') by done.
  assert (le_combine lo' = (le_combine lo + 1) mod 2 ^ 64) as ->.
  { subst lo'. rewrite le_combine_split.
    change (2 ^ (Z.of_nat 8 * 8)) with (2 ^ 64). apply Z.mod_mod. lia. }
  destruct ((le_combine lo + 1) mod 2 ^ 64 =? 0); [|reflexivity].
  rewrite (drop_app_length' lo') by done.
  rewrite (take_app_length' hi) by done.
  replace 8%nat with (length lo') at 1 by done.
  apply splice_app3. rewrite length_le_split. done.
Qed.

Lemma carry128 (lo hi : Z) :
  0 <= lo < 2 ^ 64 -> 0 <= hi < 2 ^ 64 ->
  (lo + 1) mod 2 ^ 64 +
  2 ^ 64 * (if (lo + 1) mod 2 ^ 64 =? 0 then (hi + 1) mod 2 ^ 64 else hi) =
  (lo + 2 ^ 64 * hi + 1) mod 2 ^ 128.
Proof.
  intros Hlo Hhi.
  change (2 ^ 128) with (2 ^ 64 * 2 ^ 64).
  destruct (Z.eq_dec lo (2 ^ 64 - 1)) as [-> | Hne].
  - replace (2 ^ 64 - 1 + 1) with (2 ^ 64) by lia.
    rewrite Z_mod_same_full. simpl (0 =? 0).
    replace (2 ^ 64 - 1 + 2 ^ 64 * hi + 1) with ((hi + 1) * 2 ^ 64) by lia.
    rewrite Z.mul_mod_distr_r by lia. lia.
  - rewrite (Z.mod_small (lo + 1)) by lia.
    destruct (Z.eqb_spec (lo + 1) 0) as [E | _]; [lia|].
    rewrite Z.mod_small by nia. lia.
Qed.

(** [incr_counter] on an array of at least 16 bytes: the 128-bit
    little-endian number in the first 16 bytes goes to its successor modulo
    [2^128]; everything after it stays. *)
Lemma incr_counter_spec (ent : list byte) :
  (16 <= length ent)%nat ->
  length (incr_counter ent) = length ent /\
  drop 16 (incr_counter ent) = drop 16 ent /\
  le_combine (take 16 (incr_counter ent)) =
    (le_combine (take 16 ent) + 1) mod 2 ^ 128.
Proof.
  intros Hlen.
  destruct (split3 8 8 ent ltac:(lia)) as (E & Hlo & Hhi).
  change (8 + 8)%nat with 16%nat in E.
  set (lo := take 8 ent) in *. set (hi := take 8 (drop 8 ent)) in *.
  set (seed := drop 16 ent) in *.
  assert (length seed = length ent - 16)%nat as Hseed
    by (subst seed; apply length_drop).
  assert (take 16 ent = lo ++ hi) as E16.
  { rewrite E, app_assoc. apply take_app_length'. rewrite length_app. lia. }
  assert (incr_counter ent =
          le_split 8 ((le_combine lo + 1) mod 2 ^ 64) ++
          (if (le_combine lo + 1) mod 2 ^ 64 =? 0
           then le_split 8 ((le_combine hi + 1) mod 2 ^ 64) else hi) ++ seed)
    as Ei by (rewrite E at 1; apply incr_counter_app; done).
  rewrite Ei, E16. clear Ei E16.
  set (lo' := le_split 8 ((le_combine lo + 1) mod 2 ^ 64)).
  set (hi' := if (le_combine lo + 1) mod 2 ^ 64 =? 0
              then le_split 8 ((le_combine hi + 1) mod 2 ^ 64) else hi).
  assert (length lo' = 8%nat) as Hlo' by apply length_le_split.
  assert (length hi' = 8%nat) as Hhi'.
  { subst hi'. destruct (_ =? 0); [apply length_le_split | done]. }
  split; [|split].
  - rewrite !length_app. lia.
  - rewrite (app_assoc lo' hi' seed).
    rewrite drop_app_length' by (rewrite length_app; lia). done.
  - rewrite (app_assoc lo' hi' seed).
    rewrite take_app_length' by (rewrite length_app; lia).
    rewrite !le_combine_add, Hlo, Hlo'.
    change (2 ^ (8 * Z.of_nat 8)) with (2 ^ 64).
    pose proof (le_combine_bound lo) as Blo. rewrite Hlo in Blo.
    pose proof (le_combine_bound hi) as Bhi. rewrite Hhi in Bhi.
    change (2 ^ (8 * Z.of_nat 8)) with (2 ^ 64) in Blo, Bhi.
    rewrite <- carry128 by done. f_equal.
    + subst lo'. rewrite le_combine_split.
      change (2 ^ (Z.of_nat 8 * 8)) with (2 ^ 64). apply Z.mod_mod. lia.
    + f_equal. subst hi'. destruct (_ =? 0); [|done].
      rewrite le_combine_split.
      change (2 ^ (Z.of_nat 8 * 8)) with (2 ^ 64). apply Z.mod_mod. lia.
Qed.

(** ** The store *)

Lemma array_of_lt (w : world) (p : nat) :
  (0 < length (array_of w p))%nat -> (p < length (mem w))%nat.
Proof.
  unfold array_of. intros Hlen.
  destruct (mem w !! p) as [a|] eqn:E; [|simpl in Hlen; lia].
  eapply lookup_lt_Some; eassumption.
Qed.

Lemma array_of_with_Reader (w : world) (r : randReader) (p : nat) :
  array_of (with_Reader w r) p = array_of w p.
Proof. done. Qed.

Lemma array_of_insert_eq (w w' : world) (p : nat) (a : list byte) :
  mem w' = <[p := a]> (mem w) -> (p < length (mem w))%nat ->
  array_of w' p = a.
Proof.
  intros Hm Hlt. unfold array_of. rewrite Hm.
  rewrite list_lookup_insert_eq by done. done.
Qed.

Lemma array_of_insert_ne (w w' : world) (p q : nat) (a : list byte) :
  mem w' = <[p := a]> (mem w) -> q <> p ->
  array_of w' q = array_of w q.
Proof.
  intros Hm Hne. unfold array_of. rewrite Hm.
  rewrite list_lookup_insert_ne by done. done.
Qed.

Lemma array_of_alloc_old (w w' : world) (p : nat) (a : list byte) :
  mem w' = mem w ++ [a] -> (p < length (mem w))%nat ->
  array_of w' p = array_of w p.
Proof.
  intros Hm Hlt. unfold array_of. rewrite Hm.
  rewrite lookup_app_l by done. done.
Qed.

Lemma array_of_alloc_new (w w' : world) (a : list byte) :
  mem w' = mem w ++ [a] ->
  array_of w' (length (mem w)) = a.
Proof.
  intros Hm. unfold array_of. rewrite Hm.
  rewrite lookup_app_r by lia. rewrite Nat.sub_diag. done.
Qed.

(** ** The primitives, when their accesses are in bounds *)

Lemma bind_Ok {A B} (m : M A) (k : A -> M B) (w w' : world) (a : A) :
  m w = Ok a w' -> bind m k w = k a w'.
Proof. unfold bind. intros ->. done. Qed.

Lemma peek_ok (s : slice) (i n : nat) (w : world) :
  (off s + i + n <= length (array_of w (ptr s)))%nat ->
  peek s i n w = Ok (take n (drop (off s + i) (array_of w (ptr s)))) w.
Proof.
  intros Hle. unfold peek.
  destruct (Nat.leb_spec (off s + i + n) (length (array_of w (ptr s))));
    [done | lia].
Qed.

Lemma poke_ok (s : slice) (i : nat) (d : list byte) (w : world) :
  (off s + i + length d <= length (array_of w (ptr s)))%nat ->
  poke s i d w =
  Ok tt (with_mem w
    (<[ptr s := splice (off s + i) d (array_of w (ptr s))]> (mem w))).
Proof.
  intros Hle. unfold poke.
  destruct (Nat.leb_spec (off s + i + length d) (length (array_of w (ptr s))));
    [done | lia].
Qed.

Lemma load64_ok (s : slice) (i : nat) (w : world) :
  (i < len s)%nat -> (off s + i + 8 <= length (array_of w (ptr s)))%nat ->
  load64 s i w =
  Ok (le_combine (take 8 (drop (off s + i) (array_of w (ptr s))))) w.
Proof.
  intros Hi Hle. unfold load64, index.
  destruct (Nat.ltb_spec i (len s)); [|lia].
  unfold bind, ret. rewrite peek_ok by done. done.
Qed.

Lemma store64_ok (s : slice) (i : nat) (v : Z) (w : world) :
  (i < len s)%nat -> (off s + i + 8 <= length (array_of w (ptr s)))%nat ->
  store64 s i v w =
  Ok tt (with_mem w
    (<[ptr s := splice (off s + i) (le_split 8 v) (array_of w (ptr s))]>
       (mem w))).
Proof.
  intros Hi Hle. unfold store64, index.
  destruct (Nat.ltb_spec i (len s)); [|lia].
  unfold bind, ret. rewrite poke_ok by (rewrite length_le_split; done). done.
Qed.

Lemma reslice_ok (s : slice) (lo hi : nat) (w : world) :
  (lo <= hi <= cap s)%nat ->
  reslice s lo hi w = Ok (mkSlice (ptr s) (off s + lo) (hi - lo) (cap s - lo)) w.
Proof.
  intros [H1 H2]. unfold reslice.
  destruct (Nat.leb_spec lo hi); [|lia].
  destruct (Nat.leb_spec hi (cap s)); [|lia]. done.
Qed.

Lemma append_in_place (s : slice) (d : list byte) (w : world) :
  (len s + length d <= cap s)%nat ->
  (off s + cap s <= length (array_of w (ptr s)))%nat ->
  append s d w =
  Ok (mkSlice (ptr s) (off s) (len s + length d) (cap s))
     (with_mem w
        (<[ptr s := splice (off s + len s) d (array_of w (ptr s))]> (mem w))).
Proof.
  intros Hfit Hcap. unfold append.
  destruct (Nat.leb_spec (len s + length d) (cap s)); [|lia].
  unfold bind, ret. rewrite poke_ok by lia. done.
Qed.

Lemma append_fresh (s : slice) (d : list byte) (w : world) :
  (cap s < len s + length d)%nat ->
  (off s + len s <= length (array_of w (ptr s)))%nat ->
  append s d w =
  Ok (mkSlice (length (mem w)) 0 (len s + length d) (len s + length d))
     (with_mem w
        (mem w ++ [take (len s) (drop (off s) (array_of w (ptr s))) ++ d])).
Proof.
  intros Hbig Hlen. unfold append.
  destruct (Nat.leb_spec (len s + length d) (cap s)); [lia|].
  unfold bind. rewrite peek_ok by lia. rewrite Nat.add_0_r. done.
Qed.

(** Projections of the record updates, for stepping through a run. *)
Ltac proj :=
  cbn [Reader with_Reader with_mem mem set_h set_buf set_mu set_entropy
       entropy h buf mu ptr off len cap fst snd] in *;
  rewrite ?array_of_with_Reader in *.

(** "Increment counter" rewrites the entropy array by [incr_counter]. *)
Lemma counter_incr_ok (e : slice) (w : world) :
  off e = 0%nat -> (8 < len e)%nat -> (16 <= length (array_of w (ptr e)))%nat ->
  counter_incr e w =
  Ok tt (with_mem w (<[ptr e := incr_counter (array_of w (ptr e))]> (mem w))).
Proof.
  intros Hoff Hlen Harr.
  assert (ptr e < length (mem w))%nat as Hptr by (apply array_of_lt; lia).
  unfold counter_incr, incr_counter.
  set (ent := array_of w (ptr e)) in *.
  erewrite bind_Ok by (apply load64_ok; fold ent; lia).
  erewrite bind_Ok by (apply store64_ok; fold ent; lia).
  fold ent. rewrite Hoff. simpl (0 + 0)%nat. rewrite drop_0.
  set (ent1 := splice 0 _ ent).
  assert (length ent1 = length ent) as Hlen1.
  { apply length_splice. rewrite length_le_split. lia. }
  set (w1 := with_mem w _).
  assert (array_of w1 (ptr e) = ent1) as Hw1
    by (eapply array_of_insert_eq; [reflexivity | done]).
  erewrite bind_Ok by (apply load64_ok; [lia | rewrite Hw1, Hlen1; lia]).
  rewrite Hw1, Hoff. simpl (0 + 0)%nat. rewrite drop_0.
  destruct (le_combine (take 8 ent1) =? 0).
  - erewrite bind_Ok by (apply load64_ok; [lia | rewrite Hw1, Hlen1; lia]).
    rewrite store64_ok by (rewrite ?Hw1, ?Hlen1; lia).
    rewrite Hw1, Hoff. simpl (0 + 8)%nat.
    unfold w1, with_mem; simpl. rewrite list_insert_insert_eq. done.
  - done.
Qed.

(** [copy(b[n:], buf[:])] writes the first bytes of [buf] into [b] from
    position [n] on, as many as fit. *)
Lemma fill_ok (b : slice) (n : nat) (w : world) :
  valid w b -> valid w (buf (Reader w)) -> (n <= len b)%nat ->
  fill b n w =
  Ok (Nat.min (len b - n) (len (buf (Reader w))))
     (with_mem w
        (<[ptr b :=
             splice (off b + n)
               (take (Nat.min (len b - n) (len (buf (Reader w))))
                     (contents w (buf (Reader w))))
               (array_of w (ptr b))]> (mem w))).
Proof.
  intros (Hbp & Hbc & Hbl) (Hfp & Hfc & Hfl) Hn.
  unfold fill, copy, get, bind.
  rewrite reslice_ok by lia. rewrite reslice_ok by lia.
  cbn [ptr off len cap].
  rewrite !Nat.sub_0_r, !Nat.add_0_r.
  set (k := Nat.min (len b - n) (len (buf (Reader w)))).
  rewrite peek_ok by (cbn [ptr off len cap]; lia).
  cbn [ptr off len cap]. rewrite Nat.add_0_r.
  assert (take k (contents w (buf (Reader w))) =
          take k (drop (off (buf (Reader w))) (array_of w (ptr (buf (Reader w))))))
    as Hk.
  { unfold contents. rewrite take_take. f_equal. lia. }
  assert (length (take k (drop (off (buf (Reader w)))
                    (array_of w (ptr (buf (Reader w)))))) = k) as Hlen.
  { rewrite length_take, length_drop. lia. }
  rewrite poke_ok by (cbn [ptr off len cap]; rewrite Hlen; lia).
  cbn [ptr off len cap]. unfold ret. rewrite Hlen, Hk, Nat.add_0_r. done.
Qed.

(** ** Writes that keep the sizes keep the state well formed *)

Lemma length_array_of_write (w w' : world) (p : nat) (a : list byte) :
  mem w' = <[p := a]> (mem w) -> length a = length (array_of w p) ->
  forall q, length (array_of w' q) = length (array_of w q).
Proof.
  intros Hm Hlen q. destruct (decide (q = p)) as [-> | Hne].
  - destruct (decide (p < length (mem w))%nat) as [Hlt | Hge].
    + erewrite array_of_insert_eq by eassumption. done.
    + unfold array_of. rewrite Hm, list_insert_ge by lia. done.
  - erewrite array_of_insert_ne by eassumption. done.
Qed.

Lemma valid_write (w w' : world) (p : nat) (a : list byte) (s : slice) :
  mem w' = <[p := a]> (mem w) -> length a = length (array_of w p) ->
  valid w s -> valid w' s.
Proof.
  intros Hm Hlen (H1 & H2 & H3). unfold valid.
  rewrite (length_array_of_write w w' p a Hm Hlen), Hm, length_insert. done.
Qed.

Lemma wf_write (w w' : world) (p : nat) (a : list byte) :
  mem w' = <[p := a]> (mem w) -> length a = length (array_of w p) ->
  Reader w' = Reader w ->
  wf w -> wf w'.
Proof.
  intros Hm Hlen Hr (H1 & H2 & H3 & H4 & H5 & H6). unfold wf.
  rewrite Hr, (length_array_of_write w w' p a Hm Hlen).
  do 4 (split; [done|]). split; [|done].
  eapply valid_write; eassumption.
Qed.

Section Generator.

Variable sum256 : list byte -> list byte.

Lemma rehash_spec (w : world) :
  wf w ->
  exists w',
    rehash sum256 w = Ok tt w' /\
    wf w' /\
    entropy (Reader w') = entropy (Reader w) /\
    mu (Reader w') = mu (Reader w) /\
    contents w' (buf (Reader w')) = sum256 (array_of w (ptr (entropy (Reader w)))) /\
    (length (mem w) <= length (mem w'))%nat /\
    (forall p, (p < length (mem w))%nat -> p <> ptr (buf (Reader w)) ->
               array_of w' p = array_of w p /\ p <> ptr (buf (Reader w'))).
Proof.
  intros (Hoff & Hlen & Hcap & Harr & (Hbp & Hbc & Hbl) & Hsep).
  unfold rehash, h_Reset, h_Write, h_Sum, modify, get, bind. proj.
  rewrite peek_ok by (proj; lia). proj.
  rewrite Hoff, Hlen. simpl (0 + 0)%nat. rewrite drop_0. rewrite take_ge by lia. rewrite app_nil_l.
  rewrite reslice_ok by lia. proj.
  set (ent := array_of w (ptr (entropy (Reader w)))) in *.
  set (d := sum256 ent). set (bf := buf (Reader w)) in *.
  set (e := entropy (Reader w)) in *.
  destruct (Nat.leb_spec (length d) (cap bf)) as [Hfit | Hbig].
  - rewrite append_in_place by (proj; lia). proj.
    rewrite !Nat.sub_0_r, !Nat.add_0_r, !Nat.add_0_l.
    eexists. split; [reflexivity|].
    set (w' := with_Reader _ _).
    assert (mem w' = <[ptr bf := splice (off bf) d (array_of w (ptr bf))]> (mem w))
      as Hm by reflexivity.
    assert (entropy (Reader w') = e) as He by reflexivity.
    assert (buf (Reader w') = mkSlice (ptr bf) (off bf) (length d) (cap bf))
      as Hb by reflexivity.
    assert (mu (Reader w') = mu (Reader w)) as Hmu by reflexivity.
    clearbody w'.
    assert (array_of w' (ptr bf) = splice (off bf) d (array_of w (ptr bf))) as Hbf
      by (eapply array_of_insert_eq; eassumption).
    assert (forall p, p <> ptr bf -> array_of w' p = array_of w p) as Hother
      by (intros p Hp; eapply array_of_insert_ne; eassumption).
    unfold wf, valid, contents. rewrite He, Hb, Hm, length_insert. cbn [ptr off len cap].
    rewrite Hbf, (Hother (ptr e)), length_splice by (done || lia).
    repeat split; try (done || lia).
    + replace (off bf) with (off bf + 0)%nat at 2 by lia.
      rewrite window_splice by lia.
      rewrite take_0, app_nil_l, drop_ge, app_nil_r; [done|].
      rewrite length_take. lia.
    + apply Hother. done.
  - rewrite append_fresh by (proj; lia). proj.
    rewrite !Nat.sub_0_r, !Nat.add_0_l, take_0, app_nil_l.
    eexists. split; [reflexivity|].
    set (w' := with_Reader _ _).
    assert (mem w' = mem w ++ [d]) as Hm by reflexivity.
    assert (entropy (Reader w') = e) as He by reflexivity.
    assert (buf (Reader w') = mkSlice (length (mem w)) 0 (length d) (length d))
      as Hb by reflexivity.
    assert (mu (Reader w') = mu (Reader w)) as Hmu by reflexivity.
    clearbody w'.
    assert (array_of w' (length (mem w)) = d) as Hbf
      by (eapply array_of_alloc_new; eassumption).
    assert (forall p, (p < length (mem w))%nat -> array_of w' p = array_of w p)
      as Hother by (intros p Hp; eapply array_of_alloc_old; eassumption).
    assert (ptr e < length (mem w))%nat as Hpe by (apply array_of_lt; fold ent; lia).
    unfold wf, valid, contents. rewrite He, Hb, Hm, length_app. cbn [ptr off len cap].
    rewrite Hbf, (Hother (ptr e)) by done. simpl length.
    repeat split; try (done || lia).
    + rewrite drop_0, take_ge; done.
    + apply Hother. done.
Qed.


Lemma valid_len_contents (w : world) (s : slice) :
  valid w s -> length (contents w s) = len s.
Proof.
  intros (H1 & H2 & H3). unfold contents.
  rewrite length_take, length_drop. lia.
Qed.

(** One run of the loop body of [Read]. *)
Lemma Read_body_spec (w : world) (b : slice) (n : nat) :
  wf w -> valid w b -> apart w b -> (n < len b)%nat ->
  let ent' := incr_counter (array_of w (ptr (entropy (Reader w)))) in
  let k := Nat.min (len b - n) (length (sum256 ent')) in
  exists w',
    Read_body sum256 b n w = Ok (n + k)%nat w' /\
    wf w' /\ valid w' b /\ apart w' b /\
    entropy (Reader w') = entropy (Reader w) /\
    mu (Reader w') = mu (Reader w) /\
    array_of w' (ptr (entropy (Reader w))) = ent' /\
    contents w' b =
      take n (contents w b) ++ take k (sum256 ent') ++ drop (n + k) (contents w b) /\
    (length (mem w) <= length (mem w'))%nat.
Proof.
  intros Hwf Hvb Hap Hn ent' k.
  destruct Hap as [Hz | [Hbe Hbb]]; [lia|].
  pose proof Hwf as (Hoff & Hlen & Hcap & Harr & Hvf & Hsep).
  pose proof Hvb as (Hbp & Hbc & Hbl).
  set (e := entropy (Reader w)) in *.
  destruct (incr_counter_spec (array_of w (ptr e)) ltac:(lia)) as (Hl' & _).
  fold ent' in Hl'.
  (* Increment counter. *)
  unfold Read_body. rewrite (bind_Ok get _ w w w eq_refl). fold e.
  rewrite (bind_Ok _ _ _ _ _ (counter_incr_ok e w Hoff ltac:(lia) ltac:(lia))).
  fold ent'. set (w1 := with_mem w _).
  assert (mem w1 = <[ptr e := ent']> (mem w)) as Hm1 by reflexivity.
  assert (Reader w1 = Reader w) as Hr1 by reflexivity.
  clearbody w1.
  assert (wf w1) as Hwf1 by (eapply wf_write; eassumption).
  assert (valid w1 b) as Hvb1 by (eapply valid_write; eassumption).
  assert (array_of w1 (ptr e) = ent') as He1.
  { eapply array_of_insert_eq; [eassumption|]. apply array_of_lt. lia. }
  assert (array_of w1 (ptr b) = array_of w (ptr b)) as Hb1
    by (eapply array_of_insert_ne; eassumption).
  assert (length (mem w1) = length (mem w)) as Hlm1
    by (rewrite Hm1; apply length_insert).
  (* Hash the counter + initial seed. *)
  destruct (rehash_spec w1 Hwf1)
    as (w2 & Hrun2 & Hwf2 & He2 & Hmu2 & Hc2 & Hlm2 & Hfr2).
  rewrite (bind_Ok _ _ _ _ _ Hrun2).
  rewrite Hr1 in He2, Hmu2, Hc2, Hfr2. fold e in He2, Hc2. rewrite He1 in Hc2.
  destruct (Hfr2 (ptr b) ltac:(lia) Hbb) as (Hb2 & Hbb2).
  destruct (Hfr2 (ptr e) ltac:(rewrite Hlm1; apply array_of_lt; lia)
                 ltac:(congruence))
    as (Hent2 & _).
  rewrite Hb1 in Hb2. rewrite He1 in Hent2.
  assert (valid w2 b) as Hvb2.
  { unfold valid. rewrite Hb2. split; [lia | done]. }
  pose proof Hwf2 as (_ & _ & _ & _ & Hvf2 & _).
  assert (len (buf (Reader w2)) = length (sum256 ent')) as Hlb2
    by (rewrite <- Hc2; symmetry; apply valid_len_contents; done).
  (* Fill out b. *)
  rewrite (bind_Ok _ _ _ _ _ (fill_ok b n w2 Hvb2 Hvf2 ltac:(lia))).
  rewrite Hlb2, Hc2, Hb2. fold k. unfold ret.
  set (w3 := with_mem w2 _).
  assert (mem w3 =
          <[ptr b := splice (off b + n) (take k (sum256 ent')) (array_of w (ptr b))]>
            (mem w2)) as Hm3 by reflexivity.
  assert (Reader w3 = Reader w2) as Hr3 by reflexivity.
  clearbody w3.
  assert (length (take k (sum256 ent')) = k) as Hlk
    by (rewrite length_take; lia).
  assert (length (splice (off b + n) (take k (sum256 ent')) (array_of w (ptr b))) =
          length (array_of w2 (ptr b))) as Hls
    by (rewrite Hb2; apply length_splice; lia).
  exists w3. split; [done|].
  split; [eapply wf_write; eassumption|].
  split; [eapply valid_write; eassumption|].
  split; [right; rewrite Hr3, He2; done|].
  split; [rewrite Hr3; done|].
  split; [rewrite Hr3; done|].
  split; [|split].
  - erewrite array_of_insert_ne by (eassumption || congruence). done.
  - unfold contents.
    erewrite array_of_insert_eq by (try eassumption; lia).
    rewrite window_splice by lia. rewrite Hlk. done.
  - rewrite Hm3, length_insert. lia.
Qed.


Lemma kept_refl (w : world) (b : slice) :
  wf w -> valid w b -> apart w b -> kept w w b.
Proof. intros. unfold kept. do 6 (split; [done|]). done. Qed.

Lemma kept_trans (w w1 w2 : world) (b : slice) :
  kept w w1 b -> kept w1 w2 b -> kept w w2 b.
Proof.
  intros (A1 & A2 & A3 & A4 & A5 & A6 & A7) (B1 & B2 & B3 & B4 & B5 & B6 & B7).
  unfold kept. rewrite A4 in B4, B6.
  split; [done|]. split; [done|]. split; [done|].
  split; [congruence|]. split; [congruence|]. split; [congruence|]. lia.
Qed.

Lemma Read_body_kept (w : world) (b : slice) (n : nat) :
  wf w -> valid w b -> apart w b -> (n < len b)%nat ->
  exists k w',
    Read_body sum256 b n w = Ok (n + k)%nat w' /\ (k <= len b - n)%nat /\
    kept w w' b.
Proof.
  intros Hwf Hvb Hap Hn.
  destruct (Read_body_spec w b n Hwf Hvb Hap Hn)
    as (w' & Hrun & H1 & H2 & H3 & H4 & H5 & H6 & _ & H8).
  eexists _, w'. split; [exact Hrun|]. split; [lia|].
  unfold kept. do 5 (split; [done|]). split; [|done].
  rewrite H6.
  destruct Hwf as (_ & _ & _ & Harr & _).
  apply incr_counter_spec. lia.
Qed.

(** The loop of [Read] never panics; when it ends, [b] is full. *)
Lemma Read_loop_safe (b : slice) (fuel : nat) :
  forall (w : world) (n : nat),
    wf w -> valid w b -> apart w b -> (n <= len b)%nat ->
    match Read_loop sum256 fuel b n w with
    | Ok n' w' => n' = len b /\ kept w w' b
    | Panic _ => False
    | Spin => True
    end.
Proof.
  induction fuel as [|fuel IH]; intros w n Hwf Hvb Hap Hn; simpl.
  - destruct (Nat.ltb_spec n (len b)); [done|].
    split; [lia | apply kept_refl; done].
  - destruct (Nat.ltb_spec n (len b)) as [Hlt | Hge].
    + destruct (Read_body_kept w b n Hwf Hvb Hap Hlt)
        as (k & w1 & Hrun & Hk & Hkept).
      rewrite (bind_Ok _ _ _ _ _ Hrun).
      pose proof Hkept as (A1 & A2 & A3 & _).
      specialize (IH w1 (n + k)%nat A1 A2 A3 ltac:(lia)).
      destruct (Read_loop sum256 fuel b (n + k) w1) as [n' w'| |]; try done.
      destruct IH as [-> Hk2]. split; [done|].
      eapply kept_trans; eassumption.
    + split; [lia | apply kept_refl; done].
Qed.


(** *** Termination, given that digests have 32 bytes *)

Hypothesis sum256_size : forall x, length (sum256 x) = 32%nat.

Lemma blocks_step (L : nat) :
  (0 < L)%nat -> blocks L = S (blocks (L - Nat.min L 32)).
Proof.
  intros HL. unfold blocks.
  destruct (Nat.min_spec L 32) as [[Hlt ->] | [Hge ->]].
  - rewrite Nat.sub_diag. simpl (0 + 31)%nat.
    rewrite (Nat.div_small 31 32) by lia.
    assert (L + 31 = 1 * 32 + (L - 1))%nat as -> by lia.
    rewrite Nat.div_add_l by lia. rewrite (Nat.div_small (L - 1)) by lia. lia.
  - assert (L + 31 = 1 * 32 + (L - 32 + 31))%nat as -> by lia.
    rewrite Nat.div_add_l by lia. lia.
Qed.

Lemma Read_loop_total (b : slice) (fuel : nat) :
  forall (w : world) (n : nat),
    wf w -> valid w b -> apart w b -> (n <= len b)%nat ->
    (blocks (len b - n) <= fuel)%nat ->
    exists w',
      Read_loop sum256 fuel b n w = Ok (len b) w' /\
      kept w w' b /\
      contents w' b =
        take n (contents w b) ++
        take (len b - n)
          (keystream sum256 (blocks (len b - n))
             (array_of w (ptr (entropy (Reader w))))) /\
      le_combine (take 16 (array_of w' (ptr (entropy (Reader w))))) =
        (le_combine (take 16 (array_of w (ptr (entropy (Reader w)))))
         + Z.of_nat (blocks (len b - n))) mod 2 ^ 128.
Proof.
  induction fuel as [|fuel IH]; intros w n Hwf Hvb Hap Hn Hfuel.
  - assert (n = len b) as ->.
    { destruct (decide (n = len b)) as [|Hne]; [done|].
      rewrite (blocks_step (len b - n)) in Hfuel by lia. lia. }
    exists w. simpl. rewrite Nat.ltb_irrefl, Nat.sub_diag.
    split; [done|]. split; [apply kept_refl; done|].
    split.
    + rewrite take_0, app_nil_r, <- (valid_len_contents w b Hvb), take_ge; done.
    + change (blocks 0) with 0%nat. rewrite Z.add_0_r.
      symmetry. apply Z.mod_small.
      pose proof (le_combine_bound
        (take 16 (array_of w (ptr (entropy (Reader w)))))) as Hb.
      rewrite length_take in Hb.
      split; [lia|]. eapply Z.lt_le_trans; [apply Hb|].
      apply Z.pow_le_mono_r; lia.
  - simpl. destruct (Nat.ltb_spec n (len b)) as [Hlt | Hge].
    + destruct (Read_body_spec w b n Hwf Hvb Hap Hlt)
        as (w1 & Hrun & A1 & A2 & A3 & A4 & A5 & A6 & A7 & A8).
      rewrite (bind_Ok _ _ _ _ _ Hrun).
      rewrite sum256_size in Hrun, A7 |- *.
      set (ent := array_of w (ptr (entropy (Reader w)))) in *.
      set (k := Nat.min (len b - n) 32) in *.
      assert (blocks (len b - n) = S (blocks (len b - (n + k)))) as Hbl.
      { rewrite (blocks_step (len b - n)) by lia. fold k. do 2 f_equal. lia. }
      destruct (IH w1 (n + k)%nat A1 A2 A3 ltac:(lia) ltac:(lia))
        as (w2 & Hrun2 & B1 & B2 & B3).
      rewrite A4, A6 in B2, B3.
      exists w2. split; [done|]. split.
      { eapply kept_trans; [|eassumption].
        unfold kept. do 5 (split; [done|]). split; [|done].
        fold ent. rewrite A6. apply incr_counter_spec.
        destruct Hwf as (_ & _ & _ & Harr & _). fold ent in Harr. lia. }
      pose proof (valid_len_contents w b Hvb) as Hlc.
      destruct (incr_counter_spec ent) as (_ & _ & Hctr).
      { destruct Hwf as (_ & _ & _ & Harr & _). fold ent in Harr. lia. }
      split.
      * rewrite B2, A7, Hbl. simpl keystream. fold ent.
        set (d := sum256 (incr_counter ent)).
        set (ks := keystream sum256 _ _).
        assert (length d = 32%nat) as Hd by apply sum256_size.
        rewrite (app_assoc (take n (contents w b))).
        rewrite take_app_length'
          by (rewrite length_app, !length_take; lia).
        rewrite <- app_assoc. f_equal.
        rewrite (take_app d), Hd.
        replace (len b - (n + k))%nat with (len b - n - 32)%nat by lia.
        f_equal.
        destruct (decide (len b - n <= 32)%nat).
        -- replace k with (len b - n)%nat by lia. done.
        -- rewrite (take_ge d (len b - n)) by lia.
           rewrite take_ge by lia. done.
      * rewrite B3, Hctr, Hbl, Zplus_mod_idemp_l. f_equal. lia.
    + assert (n = len b) as -> by lia.
      exists w. rewrite Nat.sub_diag.
      split; [done|]. split; [apply kept_refl; done|].
      split.
      * rewrite take_0, app_nil_r, <- (valid_len_contents w b Hvb), take_ge; done.
      * change (blocks 0) with 0%nat. rewrite Z.add_0_r.
        symmetry. apply Z.mod_small.
        pose proof (le_combine_bound
          (take 16 (array_of w (ptr (entropy (Reader w)))))) as Hb.
        rewrite length_take in Hb.
        split; [lia|]. eapply Z.lt_le_trans; [apply Hb|].
        apply Z.pow_le_mono_r; lia.
Qed.

End Generator.

Section Sampling.

Variable sum256 : list byte -> list byte.

(** *** Read, with the mutex *)

Lemma randReader_Read_safe (fuel : nat) (b : slice) (w : world) :
  wf w -> mu (Reader w) = false -> valid w b -> apart w b ->
  match randReader_Read sum256 fuel b w with
  | Ok r w' => r = (len b, None) /\ kept w w' b
  | Panic _ => False
  | Spin => True
  end.
Proof.
  intros Hwf Hmu Hvb Hap. unfold randReader_Read, mu_Lock, mu_Unlock, bind.
  rewrite Hmu.
  set (wl := with_Reader w (set_mu (Reader w) true)).
  pose proof (Read_loop_safe sum256 b fuel wl 0%nat Hwf Hvb Hap ltac:(lia)) as H.
  destruct (Read_loop sum256 fuel b 0 wl) as [n w1| |]; try done.
  destruct H as (-> & A1 & A2 & A3 & A4 & A5 & A6 & A7).
  change (mu (Reader wl)) with true in A5. rewrite A5. unfold ret.
  split; [done|]. unfold kept. rewrite Hmu.
  do 6 (split; [done|]). done.
Qed.

Lemma Read_safe (fuel : nat) (b : slice) (w : world) :
  wf w -> mu (Reader w) = false -> valid w b -> apart w b ->
  match Read sum256 fuel b w with
  | Ok _ w' => kept w w' b
  | Panic _ => False
  | Spin => True
  end.
Proof.
  intros Hwf Hmu Hvb Hap. unfold Read, bind.
  pose proof (randReader_Read_safe fuel b w Hwf Hmu Hvb Hap) as H.
  destruct (randReader_Read sum256 fuel b w) as [r w'| |]; try done.
  apply H.
Qed.

(** *** Allocation *)

Lemma make_ok (n : Z) (w : world) :
  0 <= n <= maxAlloc ->
  make n w =
  Ok (mkSlice (length (mem w)) 0 (Z.to_nat n) (Z.to_nat n))
     (with_mem w (mem w ++ [repeat Byte.x00 (Z.to_nat n)])).
Proof.
  intros Hn. unfold make.
  destruct (Z.ltb_spec n 0); [lia|].
  destruct (Z.ltb_spec maxAlloc n); [lia | done].
Qed.

Lemma make_panics (n : Z) (w : world) :
  n < 0 \/ maxAlloc < n ->
  make n w = Panic "makeslice: len out of range".
Proof.
  intros Hn. unfold make.
  destruct (Z.ltb_spec n 0); [done|].
  destruct (Z.ltb_spec maxAlloc n); [done | lia].
Qed.

Lemma alloc_kept (w : world) (a : list byte) :
  wf w ->
  kept w (with_mem w (mem w ++ [a]))
       (mkSlice (length (mem w)) 0 (length a) (length a)) /\
  contents (with_mem w (mem w ++ [a]))
           (mkSlice (length (mem w)) 0 (length a) (length a)) = a.
Proof.
  intros (H1 & H2 & H3 & H4 & (H5 & H6 & H7) & H8).
  set (w' := with_mem w (mem w ++ [a])).
  assert (mem w' = mem w ++ [a]) as Hm by reflexivity.
  assert (Reader w' = Reader w) as Hr by reflexivity.
  clearbody w'.
  assert (forall p, (p < length (mem w))%nat -> array_of w' p = array_of w p)
    as Hold by (intros p Hp; eapply array_of_alloc_old; eassumption).
  assert (array_of w' (length (mem w)) = a) as Hnew
    by (eapply array_of_alloc_new; eassumption).
  assert (ptr (entropy (Reader w)) < length (mem w))%nat as Hpe
    by (apply array_of_lt; lia).
  unfold kept, wf, valid, apart, contents. rewrite Hr, Hm, length_app.
  cbn [ptr off len cap length]. rewrite Hnew, !Hold by done.
  split; [|rewrite drop_0, take_ge; done].
  split; [repeat split; (done || lia)|].
  split; [repeat split; lia|].
  split; [right; split; lia|].
  repeat split; (done || lia).
Qed.

(** *** Intn *)

Lemma load64_range (b : slice) (i : nat) (w w' : world) (r : Z) :
  load64 b i w = Ok r w' -> w' = w /\ 0 <= r < 2 ^ 64.
Proof.
  unfold load64, index, peek, bind, ret.
  destruct (i <? len b)%nat; [|done].
  destruct (_ <=? _)%nat; [|done].
  intros [= <- <-]. split; [done|].
  pose proof (le_combine_bound
    (take 8 (drop (off b + i) (array_of w (ptr b))))) as Hb.
  rewrite length_take in Hb.
  split; [lia|]. eapply Z.lt_le_trans; [apply Hb|].
  apply Z.pow_le_mono_r; lia.
Qed.

Lemma load64_valid (b : slice) (w : world) :
  valid w b -> (8 <= len b)%nat ->
  exists r, load64 b 0 w = Ok r w /\ 0 <= r < 2 ^ 64.
Proof.
  intros (H1 & H2 & H3) Hlen.
  eexists. split; [apply load64_ok; lia|].
  pose proof (load64_ok b 0 w ltac:(lia) ltac:(lia)) as E.
  apply load64_range in E. apply E.
Qed.

Lemma Intn_loop_safe (n : Z) (b : slice) (fuel : nat) :
  0 < n <= MaxInt -> (8 <= len b)%nat ->
  forall (w : world) (r : Z),
    wf w -> mu (Reader w) = false -> valid w b -> apart w b ->
    0 <= r < 2 ^ 64 ->
    match Intn_loop sum256 fuel n (Intn_max n) b r w with
    | Ok v w' => 0 <= v < n /\ kept w w' b
    | Panic _ => False
    | Spin => True
    end.
Proof.
  intros Hn Hlen. induction fuel as [|fuel IH]; intros w r Hwf Hmu Hvb Hap Hr.
  - simpl. destruct (Z.leb_spec (Intn_max n) r); [done|]. unfold ret.
    destruct (Intn_result n r Hn Hr) as [-> ?].
    split; [done | apply kept_refl; done].
  - cbn [Intn_loop]. destruct (Z.leb_spec (Intn_max n) r).
    + unfold bind at 1.
      pose proof (Read_safe (S fuel) b w Hwf Hmu Hvb Hap) as HR.
      destruct (Read sum256 (S fuel) b w) as [[] w1| |]; try done.
      pose proof HR as (A1 & A2 & A3 & A4 & A5 & _).
      destruct (load64_valid b w1 A2 Hlen) as (r' & E & Hr').
      rewrite (bind_Ok _ _ _ _ _ E).
      specialize (IH w1 r' A1 ltac:(congruence) A2 A3 Hr').
      destruct (Intn_loop sum256 fuel n (Intn_max n) b r' w1)
        as [v w2| |]; try done.
      destruct IH as [Hv Hk]. split; [done|].
      eapply kept_trans; eassumption.
    + unfold ret. destruct (Intn_result n r Hn Hr) as [-> ?].
      split; [done | apply kept_refl; done].
Qed.

Lemma steady_refl (w : world) : wf w -> mu (Reader w) = false -> steady w w.
Proof. intros. unfold steady. do 4 (split; [done|]). done. Qed.

Lemma steady_trans (w w1 w2 : world) :
  steady w w1 -> steady w1 w2 -> steady w w2.
Proof.
  intros (A1 & A2 & A3 & A4 & A5) (B1 & B2 & B3 & B4 & B5).
  unfold steady. rewrite A3 in B3, B4.
  split; [done|]. split; [done|]. split; [congruence|].
  split; [congruence | lia].
Qed.

Lemma kept_steady (w w' : world) (b : slice) :
  mu (Reader w) = false -> kept w w' b -> steady w w'.
Proof.
  intros Hmu (A1 & A2 & A3 & A4 & A5 & A6 & A7). unfold steady.
  split; [done|]. split; [congruence|]. do 2 (split; [done|]). done.
Qed.

Lemma Bytes_safe (fuel : nat) (n : Z) (w : world) :
  wf w -> mu (Reader w) = false ->
  match Bytes sum256 fuel n w with
  | Ok b w' =>
      0 <= n <= maxAlloc /\
      b = mkSlice (length (mem w)) 0 (Z.to_nat n) (Z.to_nat n) /\
      valid w' b /\ apart w' b /\ steady w w'
  | Panic _ => n < 0 \/ maxAlloc < n
  | Spin => 0 <= n <= maxAlloc
  end.
Proof.
  intros Hwf Hmu. unfold Bytes.
  destruct (decide (n < 0 \/ maxAlloc < n)) as [Hout | Hin].
  - unfold bind. rewrite (make_panics n w Hout). done.
  - assert (0 <= n <= maxAlloc) as Hpos by lia.
    rewrite (bind_Ok _ _ _ _ _ (make_ok n w Hpos)).
    destruct (alloc_kept w (repeat Byte.x00 (Z.to_nat n)) Hwf)
      as ((A1 & A2 & A3 & A4 & A5 & A6 & A7) & _).
    rewrite repeat_length in *.
    set (b := mkSlice _ _ _ _) in *. set (w0 := with_mem w _) in *.
    unfold bind.
    pose proof (Read_safe fuel b w0 A1 Hmu A2 A3) as HR.
    destruct (Read sum256 fuel b w0) as [[] w1| |]; try done.
    unfold ret. split; [done|]. split; [done|].
    pose proof HR as (B1 & B2 & B3 & _).
    split; [done|]. split; [done|].
    eapply steady_trans; [|eapply kept_steady; [|eassumption]; done].
    unfold steady. do 4 (split; [done|]). done.
Qed.

Lemma Intn_safe (fuel : nat) (n : Z) (w : world) :
  is_int n -> wf w -> mu (Reader w) = false ->
  match Intn sum256 fuel n w with
  | Ok v w' => 0 < n /\ 0 <= v < n /\ steady w w'
  | Panic _ => n <= 0
  | Spin => 0 < n
  end.
Proof.
  intros [_ Hn] Hwf Hmu. unfold Intn.
  destruct (Z.leb_spec n 0) as [Hle | Hpos]; [done|].
  unfold bind at 1.
  pose proof (Bytes_safe fuel 8 w Hwf Hmu) as HB.
  destruct (Bytes sum256 fuel 8 w) as [b w1| |];
    [|unfold maxAlloc in HB; lia|done].
  destruct HB as (_ & Eb & A1 & A2 & A3).
  assert (len b = 8%nat) as Hlen by (rewrite Eb; done).
  destruct (load64_valid b w1 A1 ltac:(lia)) as (r & E & Hr).
  rewrite (bind_Ok _ _ _ _ _ E).
  pose proof A3 as (B1 & B2 & _).
  pose proof (Intn_loop_safe n b fuel ltac:(lia) ltac:(lia) w1 r B1 B2 A1 A2 Hr)
    as HL.
  destruct (Intn_loop sum256 fuel n (Intn_max n) b r w1) as [v w2| |]; try done.
  destruct HL as [Hv Hk]. split; [done|]. split; [done|].
  eapply steady_trans; [eassumption|]. eapply kept_steady; eassumption.
Qed.

End Sampling.

(** ** Perm: the array while it is built *)

Lemma perm_inv_start (n : Z) :
  1 <= n -> perm_inv n 1 (replicate (Z.to_nat n) 0).
Proof.
  intros Hn. unfold perm_inv. rewrite length_replicate.
  split; [done|]. split; [lia|].
  change (Z.to_nat 1) with 1%nat.
  rewrite take_replicate, drop_replicate.
  split.
  - replace (1 `min` Z.to_nat n)%nat with 1%nat by lia. done.
  - f_equal. lia.
Qed.

(** [m[i] = m[j]; m[j] = i] with [j] in [0, i]. *)
Lemma perm_inv_step (n i j v : Z) (m : list Z) :
  perm_inv n i m -> i < n -> 0 <= j < i + 1 ->
  m !! Z.to_nat j = Some v ->
  perm_inv n (i + 1) (<[Z.to_nat j := i]> (<[Z.to_nat i := v]> m)).
Proof.
  intros (Hlen & Hi & Hperm & Hrest) Hin Hj Hv.
  assert (Z.to_nat (i + 1) = S (Z.to_nat i)) as HI1 by lia.
  assert (Z.to_nat (n - i) = S (Z.to_nat (n - (i + 1)))) as Hn1 by lia.
  assert (Z.to_nat j <= Z.to_nat i)%nat as HJI by lia.
  assert (Z.to_nat i < length m)%nat as HIm by lia.
  unfold perm_inv. rewrite HI1. rewrite Hn1 in Hrest. clear HI1 Hn1.
  remember (Z.to_nat i) as I eqn:EI. clear EI.
  remember (Z.to_nat j) as J eqn:EJ. clear EJ.
  remember (replicate (Z.to_nat (n - (i + 1))) 0) as R eqn:ER.
  assert (length (take I m) = I) as HP by (rewrite length_take; lia).
  assert (m = take I m ++ 0 :: R) as Em.
  { rewrite <- (take_drop I m) at 1. rewrite Hrest, ER. done. }
  remember (take I m) as P eqn:EP. clear EP.
  assert (<[I := v]> m = P ++ v :: R) as E1.
  { rewrite Em, insert_app_r_alt by lia.
    rewrite HP, Nat.sub_diag. done. }
  rewrite !length_insert, E1.
  split; [done|]. split; [lia|].
  assert (seqZ 0 (i + 1) = seqZ 0 i ++ [i]) as ->.
  { rewrite seqZ_app by lia. rewrite (seqZ_cons (0 + i)) by lia.
    rewrite (seqZ_nil (Z.succ (0 + i))) by lia. done. }
  destruct (decide (J = I)) as [EJ | NJ].
  - rewrite EJ, insert_app_r_alt by lia.
    rewrite HP, Nat.sub_diag. cbn [insert list_insert].
    rewrite (cons_middle i P R), app_assoc.
    rewrite take_app_length', drop_app_length'
      by (rewrite length_app; simpl; lia).
    split; [|done]. apply Permutation_app_tail. exact Hperm.
  - assert (J < I)%nat as HJ by lia.
    assert (P !! J = Some v) as HPv.
    { rewrite Em, lookup_app_l in Hv by lia. done. }
    rewrite insert_app_l by lia.
    rewrite (cons_middle v (<[J := i]> P) R), app_assoc.
    rewrite take_app_length', drop_app_length'
      by (rewrite length_app, length_insert; simpl; lia).
    split; [|done].
    etrans; [|apply Permutation_app_tail; exact Hperm].
    rewrite <- (take_drop_middle P J v HPv).
    rewrite insert_app_r_alt by (rewrite length_take; lia).
    rewrite length_take.
    replace (J - J `min` length P)%nat with 0%nat by lia.
    cbn [insert list_insert].
    etrans; [apply Permutation_sym, Permutation_cons_append|].
    etrans; [|apply Permutation_cons_append].
    etrans; [apply perm_skip, Permutation_sym, Permutation_middle|].
    etrans; [|apply perm_skip, Permutation_middle].
    apply perm_swap.
Qed.

Lemma perm_inv_end (n : Z) (m : list Z) :
  perm_inv n n m -> length m = Z.to_nat n /\ m ≡ₚ seqZ 0 n.
Proof.
  intros (Hlen & Hi & Hperm & Hrest). split; [done|].
  rewrite take_ge in Hperm by lia. done.
Qed.

Section Permutations.

Variable sum256 : list byte -> list byte.

Lemma ints_get_ok (m : list Z) (i v : Z) (w : world) :
  0 <= i -> m !! Z.to_nat i = Some v -> ints_get m i w = Ok v w.
Proof.
  intros Hi Hv. unfold ints_get.
  pose proof (lookup_lt_Some _ _ _ Hv) as Hlt.
  destruct (Z.leb_spec 0 i); [|lia].
  destruct (Z.ltb_spec i (Z.of_nat (length m))); [|lia].
  simpl. rewrite Hv. done.
Qed.

Lemma ints_set_ok (m : list Z) (i v : Z) (w : world) :
  0 <= i < Z.of_nat (length m) ->
  ints_set m i v w = Ok (<[Z.to_nat i := v]> m) w.
Proof.
  intros Hi. unfold ints_set.
  destruct (Z.leb_spec 0 i); [|lia].
  destruct (Z.ltb_spec i (Z.of_nat (length m))); [|lia]. done.
Qed.

Lemma Perm_loop_safe (n : Z) (fuel : nat) :
  1 <= n <= MaxInt ->
  forall (w : world) (i : Z) (m : list Z),
    wf w -> mu (Reader w) = false -> perm_inv n i m ->
    match Perm_loop sum256 fuel n i m w with
    | Ok m' w' => length m' = Z.to_nat n /\ m' ≡ₚ seqZ 0 n /\ steady w w'
    | Panic _ => False
    | Spin => True
    end.
Proof.
  intros Hn. induction fuel as [|fuel IH]; intros w i m Hwf Hmu Hinv.
  - simpl. destruct (Z.ltb_spec i n) as [Hlt | Hge]; [done|].
    pose proof Hinv as (_ & Hi & _).
    assert (i = n) as -> by lia.
    destruct (perm_inv_end n m Hinv). unfold ret.
    split; [done|]. split; [done|]. apply steady_refl; done.
  - cbn [Perm_loop]. destruct (Z.ltb_spec i n) as [Hlt | Hge].
    + pose proof Hinv as (Hlen & Hi & _).
      assert (int (i + 1) = i + 1) as -> by (apply int_of_small; lia).
      unfold bind at 1.
      pose proof (Intn_safe sum256 (S fuel) (i + 1) w
                    ltac:(unfold is_int, MinInt, MaxInt in *; lia) Hwf Hmu) as HI.
      destruct (Intn sum256 (S fuel) (i + 1) w) as [j w1| |]; [|lia|done].
      destruct HI as (_ & Hj & Hst).
      destruct (lookup_lt_is_Some_2 m (Z.to_nat j) ltac:(lia)) as [v Hv].
      rewrite (bind_Ok _ _ _ _ _ (ints_get_ok m j v w1 ltac:(lia) Hv)).
      rewrite (bind_Ok _ _ _ _ _ (ints_set_ok m i v w1 ltac:(lia))).
      rewrite (bind_Ok _ _ _ _ _
                 (ints_set_ok (<[Z.to_nat i := v]> m) j i w1
                    ltac:(rewrite length_insert; lia))).
      pose proof Hst as (A1 & A2 & _).
      specialize (IH w1 (i + 1) _ A1 A2 (perm_inv_step n i j v m Hinv Hlt Hj Hv)).
      destruct (Perm_loop sum256 fuel n (i + 1) _ w1) as [m' w2| |]; try done.
      destruct IH as (B1 & B2 & B3).
      split; [done|]. split; [done|]. eapply steady_trans; eassumption.
    + pose proof Hinv as (_ & Hi & _).
      assert (i = n) as -> by lia.
      destruct (perm_inv_end n m Hinv). unfold ret.
      split; [done|]. split; [done|]. apply steady_refl; done.
Qed.

Lemma make_ints_ok (n : Z) (w : world) :
  0 <= n -> 8 * n <= maxAlloc ->
  make_ints n w = Ok (replicate (Z.to_nat n) 0) w.
Proof.
  intros Hn Hsz. unfold make_ints.
  destruct (Z.ltb_spec n 0); [lia|].
  destruct (Z.ltb_spec maxAlloc (8 * n)); [lia | done].
Qed.

Lemma make_ints_panics (n : Z) (w : world) :
  n < 0 \/ maxAlloc < 8 * n ->
  make_ints n w = Panic "makeslice: len out of range".
Proof.
  intros Hn. unfold make_ints.
  destruct (Z.ltb_spec n 0); [done|].
  destruct (Z.ltb_spec maxAlloc (8 * n)); [done | lia].
Qed.

Lemma Perm_safe (fuel : nat) (n : Z) (w : world) :
  wf w -> mu (Reader w) = false ->
  match Perm sum256 fuel n w with
  | Ok m w' =>
      (0 <= n /\ 8 * n <= maxAlloc) /\
      length m = Z.to_nat n /\ m ≡ₚ seqZ 0 n /\ steady w w'
  | Panic _ => n < 0 \/ maxAlloc < 8 * n
  | Spin => 2 <= n /\ 8 * n <= maxAlloc
  end.
Proof.
  intros Hwf Hmu. unfold Perm.
  destruct (decide (n < 0 \/ maxAlloc < 8 * n)) as [Hout | Hin].
  { unfold bind. rewrite (make_ints_panics n w Hout). done. }
  assert (0 <= n /\ 8 * n <= maxAlloc) as Hn by lia.
  rewrite (bind_Ok _ _ _ _ _ (make_ints_ok n w ltac:(lia) ltac:(lia))).
  destruct (decide (n <= 1)) as [Hle | Hgt].
  - assert (Perm_loop sum256 fuel n 1 (replicate (Z.to_nat n) 0) w
            = Ok (replicate (Z.to_nat n) 0) w) as ->.
    { destruct fuel; simpl; destruct (Z.ltb_spec 1 n); (lia || done). }
    split; [done|]. split; [apply length_replicate|].
    split; [|apply steady_refl; done].
    destruct (decide (n = 0)) as [-> | Hne]; [done|].
    assert (n = 1) as -> by lia. done.
  - pose proof (Perm_loop_safe n fuel
                  ltac:(unfold maxAlloc, MaxInt in *; lia) w 1
                  (replicate (Z.to_nat n) 0) Hwf Hmu
                  (perm_inv_start n ltac:(lia))) as H.
    destruct (Perm_loop sum256 fuel n 1 _ w) as [m w'| |];
      [|done|lia].
    split; [done|]. exact H.
Qed.

(** No draw is made for [n <= 1]: the state is left as it is. *)
Lemma Perm_trivial (fuel : nat) (n : Z) (w : world) :
  0 <= n <= 1 ->
  Perm sum256 fuel n w = Ok (replicate (Z.to_nat n) 0) w.
Proof.
  intros Hn. unfold Perm.
  rewrite (bind_Ok _ _ _ _ _
             (make_ints_ok n w ltac:(lia) ltac:(unfold maxAlloc; lia))).
  destruct fuel; simpl; destruct (Z.ltb_spec 1 n); (lia || done).
Qed.

End Permutations.

Section Init.

Variable sum256 : list byte -> list byte.

(** The initialiser either panics for want of entropy or leaves a
    well-formed, unlocked reader whose 48 entropy bytes are all zero. *)
Lemma Reader_init_spec (src : list byte) :
  match Reader_init sum256 src boot with
  | Ok _ w =>
      (64 <= length src)%nat /\
      entropy (Reader w) = mkSlice 1 0 48 48 /\
      array_of w 1 = repeat Byte.x00 48 /\
      h (Reader w) = take 64 src /\
      buf (Reader w) = nil_slice /\
      wf w /\ mu (Reader w) = false
  | Panic _ => (length src < 64)%nat
  | Spin => False
  end.
Proof.
  unfold Reader_init, CopyN, h_Sum, modify, get, bind, ret, panic.
  cbn [snd]. destruct (Nat.ltb_spec (length src) 64) as [Hshort | Hlong];
    [done|].
  unfold make.
  change ((16 + 32 <? 0) || (maxAlloc <? 16 + 32)) with false.
  change (Z.to_nat (16 + 32)) with 48%nat. change (length (mem boot)) with 1%nat.
  cbn beta iota. proj.
  rewrite reslice_ok by (cbn [cap]; lia). proj.
  rewrite app_nil_l. generalize (sum256 (take 64 src)). intros d.
  change (48 - 16)%nat with 32%nat. change (0 + 16)%nat with 16%nat.
  change (length (mem boot)) with 1%nat.
  set (w0 := with_Reader _ _).
  assert (mem w0 = [[]; repeat Byte.x00 48]) as Hm0 by reflexivity.
  assert (Reader w0 = mkReader (mkSlice 1 0 48 48) (take 64 src) nil_slice false)
    as Hr0 by reflexivity.
  assert (array_of w0 1 = repeat Byte.x00 48) as Ha0 by reflexivity.
  assert (wf w0) as Hwf0.
  { assert (array_of w0 0 = []) as Hn0 by reflexivity.
    unfold wf, valid. rewrite Hr0. unfold nil_slice.
    cbn [entropy buf ptr off len cap].
    rewrite Ha0, Hn0, Hm0. cbn [length]. rewrite repeat_length.
    repeat split; (done || lia). }
  clearbody w0.
  destruct d as [|x d].
  - rewrite append_in_place; cbn [ptr off len cap length]; [| lia | rewrite Ha0, repeat_length; lia].
    rewrite Ha0. change (splice (16 + 32) [] (repeat Byte.x00 48)) with (repeat Byte.x00 48).
    set (w1 := with_mem w0 _).
    assert (w1 = w0) as ->.
    { subst w1. destruct w0 as [m0 r0]. simpl in *. subst m0. done. }
    rewrite Hr0. cbn [entropy h buf mu]. done.
  - rewrite append_fresh; cbn [ptr off len cap length]; [| lia | rewrite Ha0, repeat_length; lia].
    destruct (alloc_kept w0 (take 32 (drop 16 (array_of w0 1)) ++ x :: d) Hwf0)
      as ((A1 & _ & _ & A4 & A5 & _) & _).
    set (w1 := with_mem w0 _) in *.
    assert (Reader w1 = Reader w0) as Hr1 by reflexivity.
    assert (array_of w1 1 = repeat Byte.x00 48) as Ha1.
    { rewrite <- Ha0. eapply array_of_alloc_old; [reflexivity|]. rewrite Hm0. simpl. lia. }
    clearbody w1. rewrite Hr1, Hr0. cbn [entropy h buf mu]. done.
Qed.

End Init.

Section Totality.

Variable sum256 : list byte -> list byte.
Hypothesis sum256_size : forall x, length (sum256 x) = 32%nat.

Lemma randReader_Read_total (fuel : nat) (b : slice) (w : world) :
  wf w -> mu (Reader w) = false -> valid w b -> apart w b ->
  (blocks (len b) <= fuel)%nat ->
  exists w',
    randReader_Read sum256 fuel b w = Ok (len b, None) w' /\
    kept w w' b /\
    contents w' b =
      take (len b)
        (keystream sum256 (blocks (len b))
           (array_of w (ptr (entropy (Reader w))))) /\
    le_combine (take 16 (array_of w' (ptr (entropy (Reader w))))) =
      (le_combine (take 16 (array_of w (ptr (entropy (Reader w)))))
       + Z.of_nat (blocks (len b))) mod 2 ^ 128.
Proof.
  intros Hwf Hmu Hvb Hap Hfuel.
  unfold randReader_Read, mu_Lock, mu_Unlock, bind. rewrite Hmu.
  set (wl := with_Reader w (set_mu (Reader w) true)).
  destruct (Read_loop_total sum256 sum256_size b fuel wl 0%nat Hwf Hvb Hap
              ltac:(lia) ltac:(rewrite Nat.sub_0_r; done))
    as (w1 & Hrun & Hk & Hc & Hctr).
  rewrite Hrun. destruct Hk as (A1 & A2 & A3 & A4 & A5 & A6 & A7).
  change (mu (Reader wl)) with true in A5. rewrite A5. unfold ret.
  eexists. split; [reflexivity|].
  rewrite Nat.sub_0_r, take_0, app_nil_l in Hc.
  rewrite Nat.sub_0_r in Hctr.
  split; [|split; [exact Hc | exact Hctr]].
  unfold kept. rewrite Hmu. do 6 (split; [done|]). done.
Qed.

Lemma Bytes_total (fuel : nat) (n : Z) (w : world) :
  wf w -> mu (Reader w) = false -> 0 <= n <= maxAlloc ->
  (blocks (Z.to_nat n) <= fuel)%nat ->
  exists w',
    Bytes sum256 fuel n w =
      Ok (mkSlice (length (mem w)) 0 (Z.to_nat n) (Z.to_nat n)) w' /\
    steady w w' /\
    contents w' (mkSlice (length (mem w)) 0 (Z.to_nat n) (Z.to_nat n)) =
      take (Z.to_nat n)
        (keystream sum256 (blocks (Z.to_nat n))
           (array_of w (ptr (entropy (Reader w))))).
Proof.
  intros Hwf Hmu Hn Hfuel. unfold Bytes, Read.
  rewrite (bind_Ok _ _ _ _ _ (make_ok n w Hn)).
  destruct (alloc_kept w (repeat Byte.x00 (Z.to_nat n)) Hwf)
    as ((A1 & A2 & A3 & A4 & A5 & A6 & A7) & _).
  rewrite repeat_length in *.
  set (b := mkSlice _ _ _ _) in *. set (w0 := with_mem w _) in *.
  assert (array_of w0 (ptr (entropy (Reader w))) =
          array_of w (ptr (entropy (Reader w)))) as Hent.
  { eapply array_of_alloc_old; [reflexivity|].
    apply array_of_lt. destruct Hwf as (_ & _ & _ & -> & _). lia. }
  destruct (randReader_Read_total fuel b w0 A1 Hmu A2 A3 Hfuel)
    as (w1 & Hrun & Hk & Hc & _).
  unfold bind. rewrite Hrun. unfold ret.
  exists w1. split; [done|]. split.
  - eapply steady_trans; [|eapply kept_steady; [|eassumption]; done].
    unfold steady. do 4 (split; [done|]). done.
  - rewrite Hc. change (Reader w0) with (Reader w). rewrite Hent. done.
Qed.

End Totality.

(** *** BigIntn *)

Section Big.

Variable sum256 : list byte -> list byte.

Lemma randReader_Read_nil_error (fuel : nat) (b : slice) (w w' : world)
    (r : nat * option string) :
  randReader_Read sum256 fuel b w = Ok r w' -> snd r = None.
Proof.
  unfold randReader_Read, bind, ret.
  destruct (mu_Lock w) as [[] w1| |]; [|done|done].
  destruct (Read_loop sum256 fuel b 0 w1) as [n w2| |]; [|done|done].
  destruct (mu_Unlock w2) as [[] w3| |]; [|done|done].
  intros [= <- _]. done.
Qed.

Lemma rand_Int_loop_range (max : Z) (bytes : slice) (fuel : nat) :
  forall (w w' : world) (r : option Z * option string),
    rand_Int_loop fuel (randReader_Read sum256) max bytes w = Ok r w' ->
    exists v, r = (Some v, None) /\ 0 <= v < max.
Proof.
  induction fuel as [|fuel IH]; intros w w' r; [done|].
  cbn [rand_Int_loop]. unfold bind at 1.
  destruct (randReader_Read sum256 (S fuel) bytes w) as [ne w1| |] eqn:ER;
    [|done|done].
  rewrite (randReader_Read_nil_error _ _ _ _ _ ER).
  unfold bind, peek.
  destruct (_ <=? _)%nat; [|done].
  set (data := take _ _).
  destruct (Z.ltb_spec (le_combine data) max) as [Hlt | Hge].
  - unfold ret. intros [= <- _]. eexists. split; [done|].
    pose proof (le_combine_bound data). lia.
  - apply IH.
Qed.

Lemma BigIntn_spec (fuel : nat) (n : Z) (w : world) :
  match BigIntn sum256 fuel n w with
  | Ok r w' => 0 < n /\ exists v, r = Some v /\ 0 <= v < n
  | Panic _ => True
  | Spin => 0 < n
  end.
Proof.
  unfold BigIntn, rand_Int, bind at 1.
  destruct (Z.leb_spec n 0) as [Hle | Hpos]; [done|].
  unfold bind.
  destruct (make (byte_len (n - 1)) w) as [bytes w0| |]; [|done|done].
  destruct (rand_Int_loop fuel (randReader_Read sum256) n bytes w0)
    as [r w1| |] eqn:EL; [|done|done].
  destruct (rand_Int_loop_range n bytes fuel w0 w1 r EL) as (v & -> & Hv).
  unfold ret. split; [done|]. exists v. done.
Qed.

Lemma BigIntn_nonpositive (fuel : nat) (n : Z) (w : world) :
  n <= 0 ->
  BigIntn sum256 fuel n w = Panic "crypto/rand: argument to Int is <= 0".
Proof.
  intros Hn. unfold BigIntn, rand_Int, bind, panic.
  destruct (Z.leb_spec n 0); [done | lia].
Qed.

End Big.

(** ** Two facts used throughout *)

Lemma contents_entropy (w : world) :
  wf w -> contents w (entropy (Reader w)) = array_of w (ptr (entropy (Reader w))).
Proof.
  intros (H1 & H2 & H3 & H4 & _). unfold contents.
  rewrite H1, H2, drop_0, take_ge by lia. done.
Qed.

Lemma Intn_loop_accept
    (sum256 : list byte -> list byte) (fuel : nat) (n r : Z) (b : slice)
    (w : world) :
  0 < n <= MaxInt -> 0 <= r < Intn_max n ->
  Intn_loop sum256 fuel n (Intn_max n) b r w = Ok (r mod n) w.
Proof.
  intros Hn Hr.
  pose proof (Intn_max_bounds n Hn) as [[_ Hmax] _]. unfold MaxUint64 in Hmax.
  destruct (Intn_result n r Hn ltac:(lia)) as [E _].
  destruct fuel; cbn [Intn_loop];
    (destruct (Z.leb_spec (Intn_max n) r); [lia|]); unfold ret; rewrite E; done.
Qed.

(** [Intn] returns at once when its first draw, the first eight bytes of
    the next digest read as a little-endian word, is below [max]. *)
(** * More about the store and the keystream *)

(** ** The entropy buffer along the runs of the loop body *)

Lemma iter_incr_counter (k : nat) (ent : list byte) :
  (16 <= length ent)%nat ->
  length (Nat.iter k incr_counter ent) = length ent /\
  drop 16 (Nat.iter k incr_counter ent) = drop 16 ent /\
  le_combine (take 16 (Nat.iter k incr_counter ent)) =
    (le_combine (take 16 ent) + Z.of_nat k) mod 2 ^ 128.
Proof.
  intros Hlen. induction k as [|k (IH1 & IH2 & IH3)].
  - simpl. split; [done|]. split; [done|].
    rewrite Z.add_0_r. symmetry. apply Z.mod_small.
    pose proof (le_combine_bound (take 16 ent)) as Hb.
    rewrite length_take in Hb.
    split; [lia|]. eapply Z.lt_le_trans; [apply Hb|].
    apply Z.pow_le_mono_r; lia.
  - change (Nat.iter (S k) incr_counter ent)
      with (incr_counter (Nat.iter k incr_counter ent)).
    destruct (incr_counter_spec (Nat.iter k incr_counter ent) ltac:(lia))
      as (B1 & B2 & B3).
    split; [congruence|]. split; [congruence|].
    rewrite B3, IH3, Zplus_mod_idemp_l. f_equal. lia.
Qed.

(** Two buffers with the same counter value and the same seed are equal. *)
Lemma entropy_ext (a b : list byte) :
  (16 <= length a)%nat -> length a = length b ->
  drop 16 a = drop 16 b ->
  le_combine (take 16 a) = le_combine (take 16 b) ->
  a = b.
Proof.
  intros Ha Hab Hd Hc.
  rewrite <- (take_drop 16 a), <- (take_drop 16 b), Hd. f_equal.
  apply le_combine_inj; [|done]. rewrite !length_take. lia.
Qed.

Lemma keystream_app (sum256 : list byte -> list byte) (j k : nat)
    (ent : list byte) :
  keystream sum256 (j + k) ent =
  keystream sum256 j ent ++ keystream sum256 k (Nat.iter j incr_counter ent).
Proof.
  revert ent. induction j as [|j IH]; intros ent; [done|].
  cbn [Nat.add keystream]. rewrite IH, <- app_assoc. do 2 f_equal.
  rewrite Nat.iter_succ_r. done.
Qed.

Lemma incr_counter_iter_inj (ent : list byte) (j k : nat) :
  (16 <= length ent)%nat -> (j < k)%nat ->
  Z.of_nat k - Z.of_nat j < 2 ^ 128 ->
  Nat.iter j incr_counter ent <> Nat.iter k incr_counter ent.
Proof.
  intros Hlen Hjk Hgap E.
  destruct (iter_incr_counter j ent Hlen) as (_ & _ & Hj).
  destruct (iter_incr_counter k ent Hlen) as (_ & _ & Hk).
  rewrite E, Hk in Hj.
  set (c := le_combine (take 16 ent)) in *.
  assert ((Z.of_nat k - Z.of_nat j) mod 2 ^ 128 = 0) as Hz.
  { replace (Z.of_nat k - Z.of_nat j) with ((c + Z.of_nat k) - (c + Z.of_nat j))
      by lia.
    rewrite Zminus_mod, Hj, Z.sub_diag. done. }
  rewrite Z.mod_small in Hz by lia. lia.
Qed.

(** ** What a run changes in the store *)

Lemma splice_outside (o0 L i : nat) (d a : list byte) :
  (i + length d <= L)%nat -> (o0 + L <= length a)%nat ->
  length (splice (o0 + i) d a) = length a /\
  take o0 (splice (o0 + i) d a) = take o0 a /\
  drop (o0 + L) (splice (o0 + i) d a) = drop (o0 + L) a.
Proof.
  intros Hd Ha. split; [apply length_splice; lia|]. unfold splice. split.
  - rewrite take_app_le by (rewrite length_take; lia).
    rewrite take_take. f_equal. lia.
  - rewrite drop_app_ge by (rewrite length_take; lia).
    rewrite length_take.
    rewrite drop_app_ge by lia.
    rewrite drop_drop. f_equal. lia.
Qed.

Section Frame.

Variable sum256 : list byte -> list byte.

(** One run of the loop body of [Read], array by array. *)
Lemma Read_body_arrays (w : world) (b : slice) (n : nat) :
  wf w -> valid w b -> apart w b -> (n < len b)%nat ->
  let ent' := incr_counter (array_of w (ptr (entropy (Reader w)))) in
  let k := Nat.min (len b - n) (length (sum256 ent')) in
  exists w',
    Read_body sum256 b n w = Ok (n + k)%nat w' /\
    kept w w' b /\
    array_of w' (ptr (entropy (Reader w))) = ent' /\
    array_of w' (ptr b) =
      splice (off b + n) (take k (sum256 ent')) (array_of w (ptr b)) /\
    (forall p, (p < length (mem w))%nat ->
               p <> ptr (entropy (Reader w)) -> p <> ptr b ->
               p <> ptr (buf (Reader w)) ->
               array_of w' p = array_of w p) /\
    (ptr (buf (Reader w')) = ptr (buf (Reader w)) \/
     (length (mem w) <= ptr (buf (Reader w')))%nat).
Proof.
  intros Hwf Hvb Hap Hn ent' k.
  destruct Hap as [Hz | [Hbe Hbb]]; [lia|].
  pose proof Hwf as (Hoff & Hlen & Hcap & Harr & Hvf & Hsep).
  pose proof Hvb as (Hbp & Hbc & Hbl).
  destruct (incr_counter_spec (array_of w (ptr (entropy (Reader w)))) ltac:(lia))
    as (Hl' & Hseed & _).
  fold ent' in Hl', Hseed.
  assert (ptr (entropy (Reader w)) < length (mem w))%nat as Hpe
    by (apply array_of_lt; lia).
  unfold Read_body. rewrite (bind_Ok get _ w w w eq_refl).
  rewrite (bind_Ok _ _ _ _ _
             (counter_incr_ok (entropy (Reader w)) w Hoff ltac:(lia) ltac:(lia))).
  fold ent'. set (w1 := with_mem w _).
  assert (mem w1 = <[ptr (entropy (Reader w)) := ent']> (mem w)) as Hm1
    by reflexivity.
  assert (Reader w1 = Reader w) as Hr1 by reflexivity.
  clearbody w1.
  assert (wf w1) as Hwf1 by (eapply wf_write; eassumption).
  assert (array_of w1 (ptr (entropy (Reader w))) = ent') as He1
    by (eapply array_of_insert_eq; eassumption).
  assert (forall p, p <> ptr (entropy (Reader w)) ->
                    array_of w1 p = array_of w p) as Hf1
    by (intros p Hp; eapply array_of_insert_ne; eassumption).
  assert (length (mem w1) = length (mem w)) as Hlm1
    by (rewrite Hm1; apply length_insert).
  destruct (rehash_spec sum256 w1 Hwf1)
    as (w2 & Hrun2 & Hwf2 & He2 & Hmu2 & Hc2 & Hlm2 & Hfr2).
  rewrite (bind_Ok _ _ _ _ _ Hrun2).
  rewrite Hr1 in He2, Hmu2, Hc2, Hfr2. rewrite He1 in Hc2.
  rewrite Hlm1 in Hlm2, Hfr2.
  destruct (Hfr2 (ptr b) Hbp Hbb) as (Hb2 & Hbb2).
  destruct (Hfr2 (ptr (entropy (Reader w))) Hpe ltac:(congruence))
    as (Hent2 & _).
  rewrite Hf1 in Hb2 by done. rewrite He1 in Hent2.
  assert (valid w2 b) as Hvb2.
  { unfold valid. rewrite Hb2. split; [lia | done]. }
  pose proof Hwf2 as (_ & _ & _ & _ & Hvf2 & _).
  assert (len (buf (Reader w2)) = length (sum256 ent')) as Hlb2
    by (rewrite <- Hc2; symmetry; apply valid_len_contents; done).
  assert (ptr (buf (Reader w2)) = ptr (buf (Reader w)) \/
          (length (mem w) <= ptr (buf (Reader w2)))%nat) as Hbuf2.
  { destruct (decide (ptr (buf (Reader w2)) = ptr (buf (Reader w))))
      as [|Hne]; [left; done|]. right.
    destruct (decide (ptr (buf (Reader w2)) < length (mem w))%nat)
      as [Hlt|]; [|lia].
    destruct (Hfr2 _ Hlt Hne) as [_ Hcontra]. done. }
  rewrite (bind_Ok _ _ _ _ _ (fill_ok b n w2 Hvb2 Hvf2 ltac:(lia))).
  rewrite Hlb2, Hc2, Hb2. fold k. unfold ret.
  set (w3 := with_mem w2 _).
  assert (mem w3 =
          <[ptr b := splice (off b + n) (take k (sum256 ent')) (array_of w (ptr b))]>
            (mem w2)) as Hm3 by reflexivity.
  assert (Reader w3 = Reader w2) as Hr3 by reflexivity.
  clearbody w3.
  assert (length (take k (sum256 ent')) = k) as Hlk
    by (rewrite length_take; lia).
  assert (length (splice (off b + n) (take k (sum256 ent')) (array_of w (ptr b))) =
          length (array_of w2 (ptr b))) as Hls
    by (rewrite Hb2; apply length_splice; lia).
  assert (forall p, p <> ptr b -> array_of w3 p = array_of w2 p) as Hf3
    by (intros p Hp; eapply array_of_insert_ne; eassumption).
  exists w3. split; [done|]. split.
  { unfold kept. rewrite Hr3.
    split; [eapply wf_write; eassumption|].
    split; [eapply valid_write; eassumption|].
    split; [right; rewrite Hr3, He2; done|].
    do 2 (split; [done|]).
    split; [|rewrite Hm3, length_insert; lia].
    rewrite Hf3, Hent2 by congruence. done. }
  split; [rewrite Hf3, Hent2 by congruence; done|].
  split; [eapply array_of_insert_eq; [eassumption | lia]|].
  split; [|rewrite Hr3; done].
  intros p Hp Hpe' Hpb Hpf.
  rewrite Hf3 by done.
  destruct (Hfr2 p Hp Hpf) as [-> _]. apply Hf1. done.
Qed.


Lemma framed_refl (w : world) (b : slice) : framed w w b.
Proof. unfold framed. do 4 (split; [done|]). left. done. Qed.

Lemma framed_trans (w w1 w2 : world) (b : slice) :
  kept w w1 b -> framed w w1 b -> framed w1 w2 b -> framed w w2 b.
Proof.
  intros (_ & _ & _ & He & _ & _ & Hlm) (A1 & A2 & A3 & A4 & A5)
         (B1 & B2 & B3 & B4 & B5).
  unfold framed. rewrite He in B4.
  split; [congruence|]. split; [congruence|]. split; [congruence|].
  split.
  - intros p Hp Hpe Hpb Hpf. rewrite <- (A4 p) by done.
    apply B4; [lia | done | done |]. destruct A5 as [-> | Hge]; [done | lia].
  - destruct B5 as [-> | Hge]; [|right; lia]. done.
Qed.

Lemma Read_body_framed (w : world) (b : slice) (n : nat) :
  wf w -> valid w b -> apart w b -> (n < len b)%nat ->
  exists k w',
    Read_body sum256 b n w = Ok (n + k)%nat w' /\ (k <= len b - n)%nat /\
    kept w w' b /\ framed w w' b.
Proof.
  intros Hwf Hvb Hap Hn.
  destruct (Read_body_arrays w b n Hwf Hvb Hap Hn)
    as (w' & Hrun & Hk & _ & Hb & Hfr & Hbuf).
  eexists _, w'. split; [exact Hrun|]. split; [lia|]. split; [done|].
  destruct Hvb as (_ & Hbc & Hbl).
  set (d := take _ (sum256 _)) in *.
  assert (length d <= len b - n)%nat as Hd
    by (subst d; rewrite length_take; lia).
  destruct (splice_outside (off b) (len b) n d (array_of w (ptr b))
              ltac:(lia) ltac:(lia)) as (S1 & S2 & S3).
  unfold framed. rewrite Hb. do 3 (split; [done|]). done.
Qed.

Lemma Read_loop_framed (b : slice) (fuel : nat) :
  forall (w : world) (n : nat),
    wf w -> valid w b -> apart w b -> (n <= len b)%nat ->
    match Read_loop sum256 fuel b n w with
    | Ok _ w' => kept w w' b /\ framed w w' b
    | _ => True
    end.
Proof.
  induction fuel as [|fuel IH]; intros w n Hwf Hvb Hap Hn; simpl.
  - destruct (Nat.ltb_spec n (len b)); [done|].
    split; [apply kept_refl; done | apply framed_refl].
  - destruct (Nat.ltb_spec n (len b)) as [Hlt | Hge].
    + destruct (Read_body_framed w b n Hwf Hvb Hap Hlt)
        as (k & w1 & Hrun & Hk & Hkept & Hfr).
      rewrite (bind_Ok _ _ _ _ _ Hrun).
      pose proof Hkept as (A1 & A2 & A3 & _).
      specialize (IH w1 (n + k)%nat A1 A2 A3 ltac:(lia)).
      destruct (Read_loop sum256 fuel b (n + k) w1) as [n' w'| |]; try done.
      destruct IH as [Hk2 Hfr2]. split.
      * eapply kept_trans; eassumption.
      * eapply framed_trans; eassumption.
    + split; [apply kept_refl; done | apply framed_refl].
Qed.

Lemma randReader_Read_framed (fuel : nat) (b : slice) (w : world) :
  wf w -> mu (Reader w) = false -> valid w b -> apart w b ->
  match randReader_Read sum256 fuel b w with
  | Ok _ w' => kept w w' b /\ framed w w' b
  | _ => True
  end.
Proof.
  intros Hwf Hmu Hvb Hap. unfold randReader_Read, mu_Lock, mu_Unlock, bind.
  rewrite Hmu.
  set (wl := with_Reader w (set_mu (Reader w) true)).
  pose proof (Read_loop_framed b fuel wl 0%nat Hwf Hvb Hap ltac:(lia)) as H.
  destruct (Read_loop sum256 fuel b 0 wl) as [n w1| |]; try done.
  destruct H as ((A1 & A2 & A3 & A4 & A5 & A6 & A7) & Hfr).
  change (mu (Reader wl)) with true in A5. rewrite A5. unfold ret.
  split; [|exact Hfr].
  unfold kept. rewrite Hmu. do 6 (split; [done|]). done.
Qed.

(** A slice that shares no array with [b] or the reader shows the same
    bytes after the run. *)
Lemma framed_contents (w w' : world) (b s : slice) :
  framed w w' b -> valid w s -> apart w s -> ptr s <> ptr b ->
  contents w' s = contents w s.
Proof.
  intros (_ & _ & _ & Hfr & _) (Hp & _) [Hz | [H1 H2]] Hsb; unfold contents.
  - rewrite Hz, !take_0. done.
  - rewrite (Hfr (ptr s)) by done. done.
Qed.

End Frame.

(** ** What [Read] and [Bytes] return, byte for byte *)

Section Stream.

Variable sum256 : list byte -> list byte.
Hypothesis sum256_size : forall x, length (sum256 x) = 32%nat.

Lemma length_keystream (k : nat) (ent : list byte) :
  length (keystream sum256 k ent) = (32 * k)%nat.
Proof.
  revert ent. induction k as [|k IH]; intros ent; [done|].
  cbn [keystream]. rewrite length_app, sum256_size, IH. lia.
Qed.

(** [Read], in full: what it returns, what it leaves in [b], in the entropy
    buffer and in the rest of the store. *)
Lemma randReader_Read_full (fuel : nat) (b : slice) (w : world) :
  wf w -> mu (Reader w) = false -> valid w b -> apart w b ->
  (blocks (len b) <= fuel)%nat ->
  exists w',
    randReader_Read sum256 fuel b w = Ok (len b, None) w' /\
    kept w w' b /\ framed w w' b /\
    contents w' b =
      take (len b)
        (keystream sum256 (blocks (len b))
           (array_of w (ptr (entropy (Reader w))))) /\
    array_of w' (ptr (entropy (Reader w))) =
      Nat.iter (blocks (len b)) incr_counter
        (array_of w (ptr (entropy (Reader w)))).
Proof.
  intros Hwf Hmu Hvb Hap Hfuel.
  destruct (randReader_Read_total sum256 sum256_size fuel b w
              Hwf Hmu Hvb Hap Hfuel) as (w' & Hrun & Hk & Hc & Hctr).
  pose proof (randReader_Read_framed sum256 fuel b w Hwf Hmu Hvb Hap) as Hfr.
  rewrite Hrun in Hfr. destruct Hfr as [_ Hfr].
  exists w'. do 4 (split; [done|]).
  pose proof Hwf as (_ & _ & _ & Harr & _).
  pose proof Hk as (Hwf' & _ & _ & He & _ & Hseed & _).
  pose proof Hwf' as (_ & _ & _ & Harr' & _). rewrite He in Harr'.
  destruct (iter_incr_counter (blocks (len b))
              (array_of w (ptr (entropy (Reader w)))) ltac:(lia))
    as (I1 & I2 & I3).
  apply entropy_ext; [lia | congruence | congruence | congruence].
Qed.

Lemma Read_full (fuel : nat) (b : slice) (w : world) :
  wf w -> mu (Reader w) = false -> valid w b -> apart w b ->
  (blocks (len b) <= fuel)%nat ->
  exists w',
    Read sum256 fuel b w = Ok tt w' /\
    kept w w' b /\ framed w w' b /\
    contents w' b =
      take (len b)
        (keystream sum256 (blocks (len b))
           (array_of w (ptr (entropy (Reader w))))) /\
    array_of w' (ptr (entropy (Reader w))) =
      Nat.iter (blocks (len b)) incr_counter
        (array_of w (ptr (entropy (Reader w)))).
Proof.
  intros Hwf Hmu Hvb Hap Hfuel.
  destruct (randReader_Read_full fuel b w Hwf Hmu Hvb Hap Hfuel)
    as (w' & Hrun & H).
  exists w'. split; [|exact H]. unfold Read, bind. rewrite Hrun. done.
Qed.

(** [Bytes], in full. *)
Lemma Bytes_full (fuel : nat) (n : Z) (w : world) :
  wf w -> mu (Reader w) = false -> 0 <= n <= maxAlloc ->
  (blocks (Z.to_nat n) <= fuel)%nat ->
  let b := mkSlice (length (mem w)) 0 (Z.to_nat n) (Z.to_nat n) in
  exists w',
    Bytes sum256 fuel n w = Ok b w' /\
    steady w w' /\ valid w' b /\ apart w' b /\
    contents w' b =
      take (Z.to_nat n)
        (keystream sum256 (blocks (Z.to_nat n))
           (array_of w (ptr (entropy (Reader w))))) /\
    array_of w' (ptr (entropy (Reader w))) =
      Nat.iter (blocks (Z.to_nat n)) incr_counter
        (array_of w (ptr (entropy (Reader w)))) /\
    (forall s, valid w s -> apart w s -> contents w' s = contents w s).
Proof.
  intros Hwf Hmu Hn Hfuel b. unfold Bytes.
  rewrite (bind_Ok _ _ _ _ _ (make_ok n w Hn)). fold b.
  destruct (alloc_kept w (repeat Byte.x00 (Z.to_nat n)) Hwf)
    as ((A1 & A2 & A3 & A4 & A5 & A6 & A7) & _).
  rewrite repeat_length in *. fold b in A2, A3.
  set (w0 := with_mem w _) in *.
  assert (mem w0 = mem w ++ [repeat Byte.x00 (Z.to_nat n)]) as Hm0
    by reflexivity.
  assert (Reader w0 = Reader w) as Hr0 by reflexivity.
  assert (mu (Reader w0) = false) as Hmu0 by (rewrite Hr0; done).
  clearbody w0.
  assert (forall p, (p < length (mem w))%nat -> array_of w0 p = array_of w p)
    as Hold by (intros p Hp; eapply array_of_alloc_old; eassumption).
  assert (ptr (entropy (Reader w)) < length (mem w))%nat as Hpe.
  { apply array_of_lt. destruct Hwf as (_ & _ & _ & -> & _). lia. }
  destruct (Read_full fuel b w0 A1 Hmu0 A2 A3 Hfuel)
    as (w1 & Hrun & Hk & Hfr & Hc & Hit).
  rewrite Hr0, Hold in Hc, Hit by done.
  rewrite (bind_Ok _ _ _ _ _ Hrun). unfold ret.
  exists w1. split; [done|].
  pose proof Hk as (B1 & B2 & B3 & B4 & B5 & B6 & B7).
  split.
  { unfold steady. rewrite Hr0 in B4, B5, B6.
    split; [done|]. split; [congruence|]. split; [done|].
    split; [rewrite B6, Hold by done; done|].
    rewrite Hm0, length_app in B7. simpl in B7. lia. }
  do 4 (split; [done|]).
  intros s Hvs Haps.
  assert (ptr s < length (mem w))%nat as Hps by apply Hvs.
  transitivity (contents w0 s).
  - apply (framed_contents w0 w1 b s Hfr).
    + destruct Hvs as (V1 & V2 & V3). unfold valid.
      rewrite Hold, Hm0, length_app by done. split; [lia | done].
    + unfold apart. rewrite Hr0. exact Haps.
    + subst b. cbn [ptr]. lia.
  - unfold contents. rewrite Hold by done. done.
Qed.

End Stream.

(** ** The rejection loop of [Intn] *)

Section Rejection.

Variable sum256 : list byte -> list byte.
Hypothesis sum256_size : forall x, length (sum256 x) = 32%nat.

(** The word [Intn] reads from its 8-byte buffer after a [Read]. *)
Lemma load64_contents (b : slice) (w : world) :
  valid w b -> len b = 8%nat ->
  load64 b 0 w = Ok (le_combine (contents w b)) w.
Proof.
  intros (H1 & H2 & H3) Hlen.
  rewrite load64_ok by lia. unfold contents.
  rewrite Hlen, Nat.add_0_r. done.
Qed.

Lemma Intn_loop_first_accepted (n : Z) (b : slice) (fuel : nat) :
  0 < n <= MaxInt -> len b = 8%nat ->
  forall (w : world) (r : Z),
    wf w -> mu (Reader w) = false -> valid w b -> apart w b ->
    0 <= r < 2 ^ 64 ->
    match (if Intn_max n <=? r
           then first_accepted sum256 fuel (Intn_max n)
                  (array_of w (ptr (entropy (Reader w))))
           else Some (r, array_of w (ptr (entropy (Reader w))))) with
    | Some (r', ent') =>
        exists w',
          Intn_loop sum256 fuel n (Intn_max n) b r w = Ok (r' mod n) w' /\
          array_of w' (ptr (entropy (Reader w))) = ent' /\
          kept w w' b
    | None => Intn_loop sum256 fuel n (Intn_max n) b r w = Spin
    end.
Proof.
  intros Hn Hlen. induction fuel as [|fuel IH]; intros w r Hwf Hmu Hvb Hap Hr.
  - destruct (Z.leb_spec (Intn_max n) r) as [Hge | Hlt].
    + simpl. destruct (Z.leb_spec (Intn_max n) r); [done | lia].
    + exists w. rewrite Intn_loop_accept by lia.
      split; [done|]. split; [done|]. apply kept_refl; done.
  - destruct (Z.leb_spec (Intn_max n) r) as [Hge | Hlt].
    + cbn [Intn_loop first_accepted].
      destruct (Z.leb_spec (Intn_max n) r); [|lia].
      destruct (Read_full sum256 sum256_size (S fuel) b w Hwf Hmu Hvb Hap
                  ltac:(rewrite Hlen; change (blocks 8) with 1%nat; lia))
        as (w1 & Hrun & Hk & _ & Hc & Hit).
      rewrite Hlen in Hc, Hit. change (blocks 8) with 1%nat in Hc, Hit.
      cbn [keystream Nat.iter nat_rect] in Hc, Hit.
      rewrite app_nil_r in Hc.
      rewrite (bind_Ok _ _ _ _ _ Hrun).
      pose proof Hk as (A1 & A2 & A3 & A4 & A5 & _).
      rewrite (bind_Ok _ _ _ _ _ (load64_contents b w1 A2 Hlen)). rewrite Hc.
      set (ent' := incr_counter (array_of w (ptr (entropy (Reader w))))) in *.
      set (r1 := le_combine (take 8 (sum256 ent'))).
      assert (0 <= r1 < 2 ^ 64) as Hr1.
      { pose proof (le_combine_bound (take 8 (sum256 ent'))) as Hb.
        rewrite length_take, sum256_size in Hb. exact Hb. }
      specialize (IH w1 r1 A1 ltac:(congruence) A2 A3 Hr1).
      rewrite A4, Hit in IH.
      destruct (if Intn_max n <=? r1
                then first_accepted sum256 fuel (Intn_max n) ent'
                else Some (r1, ent')) as [[r' e']|].
      * destruct IH as (w2 & Hrun2 & He2 & Hk2).
        exists w2. split; [done|]. split; [done|].
        eapply kept_trans; eassumption.
      * exact IH.
    + exists w. rewrite Intn_loop_accept by lia.
      split; [done|]. split; [done|]. apply kept_refl; done.
Qed.

Lemma Intn_first_accepted (fuel : nat) (n : Z) (w : world) :
  0 < n <= MaxInt -> wf w -> mu (Reader w) = false -> (1 <= fuel)%nat ->
  match first_accepted sum256 (S fuel) (Intn_max n)
          (array_of w (ptr (entropy (Reader w)))) with
  | Some (r, ent') =>
      exists w',
        Intn sum256 fuel n w = Ok (r mod n) w' /\
        array_of w' (ptr (entropy (Reader w))) = ent' /\
        steady w w'
  | None => Intn sum256 fuel n w = Spin
  end.
Proof.
  intros Hn Hwf Hmu Hfuel. unfold Intn.
  destruct (Z.leb_spec n 0); [lia|].
  destruct (Bytes_full sum256 sum256_size fuel 8 w Hwf Hmu
              ltac:(unfold maxAlloc; lia) ltac:(exact Hfuel))
    as (w1 & Hrun & Hst & Hvb & Hap & Hc & Hit & _).
  change (Z.to_nat 8) with 8%nat in *. change (blocks 8) with 1%nat in Hc, Hit.
  cbn [keystream Nat.iter nat_rect] in Hc, Hit. rewrite app_nil_r in Hc.
  rewrite (bind_Ok _ _ _ _ _ Hrun).
  rewrite (bind_Ok _ _ _ _ _ (load64_contents _ w1 Hvb eq_refl)). rewrite Hc.
  cbn [first_accepted].
  set (ent' := incr_counter (array_of w (ptr (entropy (Reader w))))) in *.
  set (r1 := le_combine (take 8 (sum256 ent'))).
  assert (0 <= r1 < 2 ^ 64) as Hr1.
  { pose proof (le_combine_bound (take 8 (sum256 ent'))) as Hb.
    rewrite length_take, sum256_size in Hb. exact Hb. }
  pose proof Hst as (A1 & A2 & A3 & _).
  pose proof (Intn_loop_first_accepted n (mkSlice (length (mem w)) 0 8 8)
                fuel Hn eq_refl w1 r1
                A1 A2 Hvb Hap Hr1) as HL.
  rewrite A3, Hit in HL.
  destruct (if Intn_max n <=? r1
            then first_accepted sum256 fuel (Intn_max n) ent'
            else Some (r1, ent')) as [[r' e']|].
  - destruct HL as (w2 & Hrun2 & He2 & Hk2).
    exists w2. split; [done|]. split; [done|].
    eapply steady_trans; [eassumption|]. eapply kept_steady; eassumption.
  - exact HL.
Qed.

End Rejection.

(** ** Draws, and when the loops end *)

Lemma draw_succ (sum256 : list byte -> list byte) (ent : list byte) (k : nat) :
  draw sum256 ent (S k) = draw sum256 (incr_counter ent) k.
Proof. unfold draw. rewrite (Nat.iter_succ_r (S k)). done. Qed.

Lemma draw_iter (sum256 : list byte -> list byte) (ent : list byte)
    (j k : nat) :
  draw sum256 (Nat.iter j incr_counter ent) k = draw sum256 ent (j + k).
Proof.
  unfold draw. rewrite <- Nat.iter_add.
  replace (S k + j)%nat with (S (j + k)) by lia. done.
Qed.

(** [first_accepted] returns the first draw below [max], having passed over
    the draws before it, all of them at or above [max]. *)
Lemma first_accepted_spec (sum256 : list byte -> list byte) (max : Z)
    (tries : nat) :
  forall ent,
    match first_accepted sum256 tries max ent with
    | Some (r, ent') =>
        exists k, (k < tries)%nat /\
          (forall j, (j < k)%nat -> max <= draw sum256 ent j) /\
          r = draw sum256 ent k /\ r < max /\
          ent' = Nat.iter (S k) incr_counter ent
    | None => forall j, (j < tries)%nat -> max <= draw sum256 ent j
    end.
Proof.
  induction tries as [|t IH]; intros ent; cbn [first_accepted].
  - intros j Hj. lia.
  - destruct (Z.leb_spec max (le_combine (take 8 (sum256 (incr_counter ent)))))
      as [Hge | Hlt].
    + specialize (IH (incr_counter ent)).
      destruct (first_accepted sum256 t max (incr_counter ent)) as [[r ent']|].
      * destruct IH as (k & Hk & Hrej & Hr & Hacc & He).
        exists (S k). split; [lia|]. split.
        { intros [|j] Hj; [exact Hge|]. rewrite draw_succ. apply Hrej. lia. }
        split; [rewrite draw_succ; done|]. split; [done|].
        rewrite He, <- Nat.iter_succ_r. done.
      * intros [|j] Hj; [exact Hge|]. rewrite draw_succ. apply IH. lia.
    + exists 0%nat. split; [lia|]. split; [intros; lia|]. done.
Qed.

(** Every bound [Intn] can compute leaves the draws below [2^64 - n]
    accepted. *)
Lemma Intn_max_above (n k : Z) :
  0 < k <= n -> n <= MaxInt -> 2 ^ 64 - n <= Intn_max k.
Proof.
  intros Hk Hn. pose proof (Intn_max_bounds k ltac:(lia)) as H.
  unfold MaxUint64 in H. lia.
Qed.

Section Termination.

Variable sum256 : list byte -> list byte.
Hypothesis sum256_size : forall x, length (sum256 x) = 32%nat.

(** [Intn] in terms of the draws: it returns the residue of the first draw
    below [max], and runs out of fuel only when every draw it could make is
    at or above [max]. *)
Lemma Intn_by_draws (fuel : nat) (n : Z) (w : world) :
  0 < n <= MaxInt -> wf w -> mu (Reader w) = false -> (1 <= fuel)%nat ->
  let d := draw sum256 (array_of w (ptr (entropy (Reader w)))) in
  match Intn sum256 fuel n w with
  | Ok v w' =>
      exists k, (k <= fuel)%nat /\
        (forall j, (j < k)%nat -> Intn_max n <= d j) /\
        d k < Intn_max n /\ v = d k mod n /\
        array_of w' (ptr (entropy (Reader w))) =
          Nat.iter (S k) incr_counter (array_of w (ptr (entropy (Reader w)))) /\
        steady w w'
  | Panic _ => False
  | Spin => forall j, (j <= fuel)%nat -> Intn_max n <= d j
  end.
Proof.
  intros Hn Hwf Hmu Hfuel d.
  pose proof (Intn_first_accepted sum256 sum256_size fuel n w Hn Hwf Hmu Hfuel)
    as H.
  pose proof (first_accepted_spec sum256 (Intn_max n) (S fuel)
                (array_of w (ptr (entropy (Reader w))))) as HF.
  destruct (first_accepted sum256 (S fuel) (Intn_max n)
              (array_of w (ptr (entropy (Reader w))))) as [[r ent']|].
  - destruct H as (w' & -> & He & Hst).
    destruct HF as (k & Hk & Hrej & -> & Hacc & ->).
    exists k. subst d. split; [lia|]. do 4 (split; [done|]). done.
  - rewrite H. intros j Hj. apply HF. lia.
Qed.

(** [Intn] returns as soon as one of the draws it can make is accepted. *)
Lemma Intn_returns (fuel : nat) (n : Z) (w : world) (k : nat) :
  0 < n <= MaxInt -> wf w -> mu (Reader w) = false ->
  (1 <= fuel)%nat -> (k <= fuel)%nat ->
  draw sum256 (array_of w (ptr (entropy (Reader w)))) k < Intn_max n ->
  exists k0 v w',
    (k0 <= k)%nat /\ 0 <= v < n /\
    Intn sum256 fuel n w = Ok v w' /\
    array_of w' (ptr (entropy (Reader w))) =
      Nat.iter (S k0) incr_counter (array_of w (ptr (entropy (Reader w)))) /\
    steady w w'.
Proof.
  intros Hn Hwf Hmu Hfuel Hk Hacc.
  pose proof (Intn_by_draws fuel n w Hn Hwf Hmu Hfuel) as H. cbv zeta in H.
  destruct (Intn sum256 fuel n w) as [v w'| |]; [|done|].
  - destruct H as (k0 & _ & Hrej & _ & -> & He & Hst).
    eexists k0, _, w'. split.
    { destruct (Nat.le_gt_cases k0 k) as [|Hlt]; [done|].
      specialize (Hrej k Hlt). lia. }
    split; [apply Z.mod_pos_bound; lia|]. do 2 (split; [done|]). done.
  - specialize (H k Hk). lia.
Qed.

(** The loop of [Perm] ends when, among the draws it can reach, no [T] in a
    row are at or above [2^64 - n]. *)
Lemma Perm_loop_total (n : Z) (T : nat) (ent0 : list byte) :
  1 <= n <= MaxInt -> (1 <= T)%nat ->
  (forall j, (j < Z.to_nat n * T)%nat ->
     exists k, (k < T)%nat /\ draw sum256 ent0 (j + k) < 2 ^ 64 - n) ->
  forall (fuel : nat) (w : world) (i : Z) (m : list Z) (j0 : nat),
    wf w -> mu (Reader w) = false -> perm_inv n i m ->
    array_of w (ptr (entropy (Reader w))) = Nat.iter j0 incr_counter ent0 ->
    (j0 <= Z.to_nat (i - 1) * T)%nat ->
    (Z.to_nat (n - i) + T <= fuel)%nat ->
    exists m' w', Perm_loop sum256 fuel n i m w = Ok m' w'.
Proof.
  intros Hn HT Hdraws.
  induction fuel as [|fuel IH]; intros w i m j0 Hwf Hmu Hinv Hent Hj0 Hfuel;
    [lia|].
  cbn [Perm_loop]. pose proof Hinv as (Hlen & Hi & _).
  destruct (Z.ltb_spec i n) as [Hlt | Hge]; [|eexists _, _; done].
  assert (int (i + 1) = i + 1) as -> by (apply int_of_small; lia).
  assert (j0 < Z.to_nat n * T)%nat as Hj0n by nia.
  destruct (Hdraws j0 Hj0n) as (k & Hk & Hacc).
  rewrite <- draw_iter, <- Hent in Hacc.
  destruct (Intn_returns (S fuel) (i + 1) w k ltac:(lia) Hwf Hmu
              ltac:(lia) ltac:(lia)
              ltac:(pose proof (Intn_max_above n (i + 1)
                                  ltac:(lia) ltac:(lia)); lia))
    as (k0 & j & w1 & Hk0 & Hj & Hrun & He1 & Hst).
  rewrite (bind_Ok _ _ _ _ _ Hrun).
  destruct (lookup_lt_is_Some_2 m (Z.to_nat j) ltac:(lia)) as [v Hv].
  rewrite (bind_Ok _ _ _ _ _ (ints_get_ok m j v w1 ltac:(lia) Hv)).
  rewrite (bind_Ok _ _ _ _ _ (ints_set_ok m i v w1 ltac:(lia))).
  rewrite (bind_Ok _ _ _ _ _
             (ints_set_ok (<[Z.to_nat i := v]> m) j i w1
                ltac:(rewrite length_insert; lia))).
  pose proof Hst as (A1 & A2 & A3 & _).
  apply (IH w1 (i + 1) _ (S k0 + j0)%nat A1 A2
           (perm_inv_step n i j v m Hinv Hlt Hj Hv)).
  - rewrite A3, He1, Hent, <- Nat.iter_add. done.
  - replace (Z.to_nat (i + 1 - 1)) with (S (Z.to_nat (i - 1))) by lia.
    simpl. lia.
  - lia.
Qed.

(** [Perm] returns under the same condition on the draws, for every [n]
    the runtime can allocate. *)
Lemma Perm_total (T fuel : nat) (n : Z) (w : world) :
  0 <= n -> 8 * n <= maxAlloc -> wf w -> mu (Reader w) = false ->
  (1 <= T)%nat ->
  (forall j, (j < Z.to_nat n * T)%nat ->
     exists k, (k < T)%nat /\
       draw sum256 (array_of w (ptr (entropy (Reader w)))) (j + k) < 2 ^ 64 - n) ->
  (Z.to_nat n + T <= fuel)%nat ->
  exists m w', Perm sum256 fuel n w = Ok m w'.
Proof.
  intros Hn Hsz Hwf Hmu HT Hdraws Hfuel. unfold Perm.
  rewrite (bind_Ok _ _ _ _ _ (make_ints_ok n w Hn Hsz)).
  destruct (decide (n = 0)) as [-> | Hne].
  - destruct fuel; simpl; eexists _, _; done.
  - apply (Perm_loop_total n T (array_of w (ptr (entropy (Reader w))))
             ltac:(unfold maxAlloc, MaxInt in *; lia) HT Hdraws
             fuel w 1 _ 0%nat Hwf Hmu (perm_inv_start n ltac:(lia)));
      [done | simpl; lia | lia].
Qed.

End Termination.

(** ** The stand-in digest and its states are admissible *)

Lemma demo_sum256_size (x : list byte) : length (demo_sum256 x) = 32%nat.
Proof. apply length_le_split. Qed.

Lemma demo_world_wf : wf demo_world.
Proof.
  pose proof (Reader_init_spec demo_sum256 demo_src) as H.
  unfold demo_world.
  destruct (Reader_init demo_sum256 demo_src boot) as [[] w| |];
    [apply H | | done].
  exfalso. revert H. unfold demo_src. rewrite repeat_length. lia.
Qed.

Lemma demo_world_unlocked : mu (Reader demo_world) = false.
Proof. vm_compute. reflexivity. Qed.

Lemma demo_world_b_kept : kept demo_world demo_world_b demo_b.
Proof.
  pose proof (alloc_kept demo_world (repeat Byte.x00 40) demo_world_wf)
    as [H _].
  exact H.
Qed.

Lemma demo_world_b_wf : wf demo_world_b.
Proof. apply demo_world_b_kept. Qed.

Lemma demo_b_valid : valid demo_world_b demo_b.
Proof. apply demo_world_b_kept. Qed.

Lemma demo_b_apart : apart demo_world_b demo_b.
Proof. apply demo_world_b_kept. Qed.

Lemma Reader_init_contents
    (sum256 : list byte -> list byte) (src : list byte) (w : world) :
  Reader_init sum256 src boot = Ok tt w ->
  len (entropy (Reader w)) = 48%nat /\
  contents w (entropy (Reader w)) = repeat Byte.x00 48.
Proof.
  intros Hrun. pose proof (Reader_init_spec sum256 src) as H.
  rewrite Hrun in H. destruct H as (_ & He & Ha & _ & _ & Hwf & _).
  rewrite (contents_entropy w Hwf), He. done.
Qed.

(** The seed is the digest only if the digest is 32 zero bytes. *)
Lemma Reader_init_seed_is_not_digest
    (sum256 : list byte -> list byte) (src : list byte) (w : world) :
  Reader_init sum256 src boot = Ok tt w ->
  sum256 (take 64 src) <> repeat Byte.x00 32 ->
  drop 16 (contents w (entropy (Reader w))) <> sum256 (take 64 src).
Proof.
  intros Hrun Hd.
  destruct (Reader_init_contents sum256 src w Hrun) as [_ ->].
  intros E. apply Hd. rewrite <- E. done.
Qed.

(** With the stand-in digest: the seed bytes are zero, the digest is not. *)
Example Reader_init_demo :
  drop 16 (contents demo_world (entropy (Reader demo_world))) = repeat Byte.x00 32 /\
  take 4 (demo_sum256 (take 64 demo_src)) = [Byte.x9f; Byte.x7e; Byte.x0a; Byte.xb1].
Proof. vm_compute. done. Qed.

Lemma Intn_first_draw_accepted
    (sum256 : list byte -> list byte)
    (sum256_size : forall x, length (sum256 x) = 32%nat)
    (fuel : nat) (n : Z) (w : world) :
  0 < n <= MaxInt -> wf w -> mu (Reader w) = false -> (1 <= fuel)%nat ->
  let r := le_combine (take 8 (sum256 (incr_counter
                                 (contents w (entropy (Reader w)))))) in
  r < Intn_max n ->
  exists w', Intn sum256 fuel n w = Ok (r mod n) w' /\ steady w w'.
Proof.
  intros Hn Hwf Hmu Hfuel r Hr. unfold Intn.
  destruct (Z.leb_spec n 0); [lia|].
  destruct (Bytes_total sum256 sum256_size fuel 8 w Hwf Hmu
              ltac:(unfold maxAlloc; lia)
              ltac:(exact Hfuel)) as (w1 & Hrun & Hst & Hc).
  rewrite (bind_Ok _ _ _ _ _ Hrun).
  pose proof (Bytes_safe sum256 fuel 8 w Hwf Hmu) as Hs.
  rewrite Hrun in Hs. destruct Hs as (_ & _ & Hvb & _).
  change (Z.to_nat 8) with 8%nat in *.
  assert (load64 (mkSlice (length (mem w)) 0 8 8) 0 w1 = Ok r w1) as Hload.
  { destruct Hvb as (_ & Hcap & _). cbn [len off cap ptr] in Hcap.
    rewrite load64_ok by (cbn [len off cap ptr]; lia).
    do 2 f_equal. unfold contents in Hc. cbn [len off ptr] in *.
    rewrite drop_0 in *. rewrite Hc. subst r.
    rewrite (contents_entropy w Hwf).
    change (blocks 8) with 1%nat. cbn [keystream].
    rewrite app_nil_r. done. }
  rewrite (bind_Ok _ _ _ _ _ Hload).
  pose proof (le_combine_bound
    (take 8 (sum256 (incr_counter (contents w (entropy (Reader w))))))) as Hb.
  fold r in Hb.
  rewrite Intn_loop_accept by lia.
  exists w1. done.
Qed.

Example Intn_first_draw_demo :
  exists w', Intn demo_sum256 1 7 demo_world = Ok 4 w' /\ steady demo_world w'.
Proof.
  apply (Intn_first_draw_accepted demo_sum256 demo_sum256_size 1 7 demo_world).
  - unfold MaxInt. lia.
  - exact demo_world_wf.
  - exact demo_world_unlocked.
  - lia.
  - vm_compute. done.
Qed.

(** * The claims *)

(** C1 (what the code does).  The initialiser of [Reader] either panics,
    when the system source delivers fewer than 64 bytes, or returns with an
    entropy buffer of 48 bytes that are all zero, counter and seed alike,
    whatever the digest is: [r.entropy[16:]] has length 32 and capacity 32,
    so [Sum] appends the digest into a fresh array and the result is
    dropped. *)
Theorem Reader_init_entropy_all_zero
    (sum256 : list byte -> list byte) (src : list byte) :
  match Reader_init sum256 src boot with
  | Ok _ w =>
      len (entropy (Reader w)) = 48%nat /\
      contents w (entropy (Reader w)) = repeat Byte.x00 48
  | Panic _ => (length src < 64)%nat
  | Spin => False
  end.
Proof.
  pose proof (Reader_init_spec sum256 src) as H.
  destruct (Reader_init sum256 src boot) as [[] w| |] eqn:E; [|done|done].
  apply (Reader_init_contents sum256 src w E).
Qed.

(** C2.  [Intn(n)] panics if and only if [n <= 0]; whenever it returns, the
    value is in [[0, n)]. *)
Theorem Intn_panics_iff_nonpositive
    (sum256 : list byte -> list byte) (fuel : nat) (n : Z) (w : world) :
  is_int n -> wf w -> mu (Reader w) = false ->
  (panics (Intn sum256 fuel n w) <-> n <= 0) /\
  (forall v w', Intn sum256 fuel n w = Ok v w' -> 0 < n /\ 0 <= v < n).
Proof.
  intros Hn Hwf Hmu.
  pose proof (Intn_safe sum256 fuel n w Hn Hwf Hmu) as H.
  split; [split|].
  - destruct (Intn sum256 fuel n w); simpl; (done || lia).
  - intros Hle. unfold Intn. destruct (Z.leb_spec n 0); [done | lia].
  - intros v w' E. rewrite E in H. destruct H as (? & ? & _). done.
Qed.

Lemma Intn_panics_iff_nonpositive_witness :
  (panics (Intn demo_sum256 4 7 demo_world) <-> 7 <= 0) /\
  (forall v w', Intn demo_sum256 4 7 demo_world = Ok v w' -> 0 < 7 /\ 0 <= v < 7).
Proof.
  apply (Intn_panics_iff_nonpositive demo_sum256 4 7 demo_world).
  - unfold is_int, MinInt, MaxInt. lia.
  - exact demo_world_wf.
  - exact demo_world_unlocked.
Defined.

Example Intn_demo :
  value (Intn demo_sum256 4 7 demo_world) = Some 4 /\
  value (Intn demo_sum256 4 (2 ^ 62) demo_world) = Some 4452426778903328372 /\
  Intn demo_sum256 4 0 demo_world = Panic "fastrand: argument to Intn is <= 0" /\
  Intn demo_sum256 4 (-1) demo_world = Panic "fastrand: argument to Intn is <= 0".
Proof. vm_compute. done. Qed.

(** C3 (as stated, refuted).  For [n = 1] the code computes
    [max = 2^64 - 1], while [W - (W mod n)] is [2^64]; the same happens for
    every [n] that divides [2^64]. *)
Lemma Intn_max_is_not_W_minus_W_mod_n :
  Intn_max 1 = 2 ^ 64 - 1 /\ 2 ^ 64 - 2 ^ 64 mod 1 = 2 ^ 64 /\
  Intn_max 4 = 2 ^ 64 - 4 /\ 2 ^ 64 - 2 ^ 64 mod 4 = 2 ^ 64.
Proof. vm_compute. done. Qed.

(** C3 (amended).  For every positive [int] [n], [max] is
    [MaxUint64 - MaxUint64 mod n], the largest multiple of [n] not exceeding
    [MaxUint64 = 2^64 - 1].  It is [W - (W mod n)] for [W = 2^64] when [n]
    does not divide [W], and [W - n] when it does. *)
Theorem Intn_max_largest_multiple (n : Z) :
  0 < n <= MaxInt ->
  Intn_max n = MaxUint64 - MaxUint64 mod n /\
  Intn_max n mod n = 0 /\
  Intn_max n <= MaxUint64 < Intn_max n + n /\
  (2 ^ 64 mod n <> 0 -> Intn_max n = 2 ^ 64 - 2 ^ 64 mod n) /\
  (2 ^ 64 mod n = 0 -> Intn_max n = 2 ^ 64 - n).
Proof.
  intros Hn. split; [apply Intn_max_eq; done|]. split.
  { rewrite (Intn_max_div n Hn), Z.mul_comm. apply Z.mod_mul. lia. }
  split; [pose proof (Intn_max_bounds n Hn); lia|].
  pose proof (Intn_max_vs_W n Hn) as H.
  split; intros E; destruct (Z.eqb_spec (2 ^ 64 mod n) 0); (done || lia).
Qed.

Lemma Intn_max_largest_multiple_witness :
  Intn_max 3 = MaxUint64 - MaxUint64 mod 3 /\
  Intn_max 3 mod 3 = 0 /\
  Intn_max 3 <= MaxUint64 < Intn_max 3 + 3 /\
  (2 ^ 64 mod 3 <> 0 -> Intn_max 3 = 2 ^ 64 - 2 ^ 64 mod 3) /\
  (2 ^ 64 mod 3 = 0 -> Intn_max 3 = 2 ^ 64 - 3).
Proof.
  apply (Intn_max_largest_multiple 3). unfold MaxInt. lia.
Defined.

(** C4.  For every positive [int] [n], [max] is an exact multiple of [n].
    The draws the loop accepts are exactly those below [max]: a draw below
    [max] is returned as its residue modulo [n]; a draw at or above [max] is
    never returned, the loop reads the next one instead; so [Intn] returns
    the residue of the first draw below [max], having passed over every
    draw before it.  Every residue [k] is hit by exactly the draws
    [q * n + k] with [q] in [[0, max / n)], the same number for each [k]. *)
Theorem Intn_max_multiple_of_n (n : Z) :
  0 < n <= MaxInt ->
  Intn_max n mod n = 0 /\
  (forall sum256 fuel b r w,
     0 <= r < Intn_max n ->
     Intn_loop sum256 fuel n (Intn_max n) b r w = Ok (r mod n) w) /\
  (forall sum256 fuel b r w,
     Intn_max n <= r ->
     Intn_loop sum256 (S fuel) n (Intn_max n) b r w =
       (Read sum256 (S fuel) b >>
        let* r' := load64 b 0 in
        Intn_loop sum256 fuel n (Intn_max n) b r') w) /\
  (forall sum256 fuel w,
     (forall x, length (sum256 x) = 32%nat) ->
     wf w -> mu (Reader w) = false -> (1 <= fuel)%nat ->
     match Intn sum256 fuel n w with
     | Ok v _ =>
         exists k, (k <= fuel)%nat /\
           (forall j, (j < k)%nat ->
              Intn_max n <= draw sum256 (contents w (entropy (Reader w))) j) /\
           draw sum256 (contents w (entropy (Reader w))) k < Intn_max n /\
           v = draw sum256 (contents w (entropy (Reader w))) k mod n
     | Panic _ => False
     | Spin =>
         forall j, (j <= fuel)%nat ->
           Intn_max n <= draw sum256 (contents w (entropy (Reader w))) j
     end) /\
  (forall k r, 0 <= k < n ->
     (0 <= r < Intn_max n /\ r mod n = k) <->
     (exists q, 0 <= q < Intn_max n / n /\ r = q * n + k)) /\
  (forall k q q', q * n + k = q' * n + k -> q = q').
Proof.
  intros Hn. split.
  { rewrite (Intn_max_div n Hn), Z.mul_comm. apply Z.mod_mul. lia. }
  split; [intros; apply Intn_loop_accept; done|].
  split.
  { intros sum256 fuel b r w Hr. cbn [Intn_loop].
    destruct (Z.leb_spec (Intn_max n) r); [done | lia]. }
  split.
  { intros sum256 fuel w Hsize Hwf Hmu Hfuel.
    pose proof (Intn_by_draws sum256 Hsize fuel n w Hn Hwf Hmu Hfuel) as H.
    cbv zeta in H. rewrite (contents_entropy w Hwf).
    destruct (Intn sum256 fuel n w) as [v w'| |]; [|done|done].
    destruct H as (k & Hk & Hrej & Hacc & Hv & _).
    exists k. do 3 (split; [done|]). done. }
  split; [intros; apply residue_class; done|].
  intros k q q' E. nia.
Qed.

Lemma Intn_max_multiple_of_n_witness :
  Intn_max 7 mod 7 = 0 /\
  (forall sum256 fuel b r w,
     0 <= r < Intn_max 7 ->
     Intn_loop sum256 fuel 7 (Intn_max 7) b r w = Ok (r mod 7) w) /\
  (forall sum256 fuel b r w,
     Intn_max 7 <= r ->
     Intn_loop sum256 (S fuel) 7 (Intn_max 7) b r w =
       (Read sum256 (S fuel) b >>
        let* r' := load64 b 0 in
        Intn_loop sum256 fuel 7 (Intn_max 7) b r') w) /\
  (forall sum256 fuel w,
     (forall x, length (sum256 x) = 32%nat) ->
     wf w -> mu (Reader w) = false -> (1 <= fuel)%nat ->
     match Intn sum256 fuel 7 w with
     | Ok v _ =>
         exists k, (k <= fuel)%nat /\
           (forall j, (j < k)%nat ->
              Intn_max 7 <= draw sum256 (contents w (entropy (Reader w))) j) /\
           draw sum256 (contents w (entropy (Reader w))) k < Intn_max 7 /\
           v = draw sum256 (contents w (entropy (Reader w))) k mod 7
     | Panic _ => False
     | Spin =>
         forall j, (j <= fuel)%nat ->
           Intn_max 7 <= draw sum256 (contents w (entropy (Reader w))) j
     end) /\
  (forall k r, 0 <= k < 7 ->
     (0 <= r < Intn_max 7 /\ r mod 7 = k) <->
     (exists q, 0 <= q < Intn_max 7 / 7 /\ r = q * 7 + k)) /\
  (forall k q q', q * 7 + k = q' * 7 + k -> q = q').
Proof.
  apply (Intn_max_multiple_of_n 7). unfold MaxInt. lia.
Defined.

(** A rejection at work: the first draw is [2^64 - 1], at or above
    [max = 2^64 - 2], and [Intn(7)] returns the residue of the second. *)
Example Intn_rejects_demo :
  draw demo_reject (contents demo_world (entropy (Reader demo_world))) 0
    = 2 ^ 64 - 1 /\
  Intn_max 7 = 2 ^ 64 - 2 /\
  (2 ^ 64 - 1) mod 7 = 1 /\
  draw demo_reject (contents demo_world (entropy (Reader demo_world))) 1 mod 7
    = 6 /\
  value (Intn demo_reject 1 7 demo_world) = Some 6.
Proof. vm_compute. done. Qed.

Lemma incr_counter_words (c : list byte) :
  (16 <= length c)%nat ->
  le_combine (take 8 (incr_counter c)) = (le_combine (take 8 c) + 1) mod 2 ^ 64 /\
  le_combine (take 8 (drop 8 (incr_counter c))) =
    if (le_combine (take 8 c) + 1) mod 2 ^ 64 =? 0
    then (le_combine (take 8 (drop 8 c)) + 1) mod 2 ^ 64
    else le_combine (take 8 (drop 8 c)).
Proof.
  intros Hlen.
  destruct (split3 8 8 c ltac:(lia)) as (E & Hlo & Hhi).
  set (lo := take 8 c) in *. set (hi := take 8 (drop 8 c)) in *.
  assert (incr_counter c =
          le_split 8 ((le_combine lo + 1) mod 2 ^ 64) ++
          (if (le_combine lo + 1) mod 2 ^ 64 =? 0
           then le_split 8 ((le_combine hi + 1) mod 2 ^ 64) else hi) ++
          drop (8 + 8) c) as ->
    by (rewrite E at 1; apply incr_counter_app; done).
  assert (forall v, le_combine (le_split 8 (v mod 2 ^ 64)) = v mod 2 ^ 64) as Hrt.
  { intros v. rewrite le_combine_split.
    change (2 ^ (Z.of_nat 8 * 8)) with (2 ^ 64). apply Z.mod_mod. lia. }
  rewrite take_app_length' by (symmetry; apply length_le_split).
  rewrite drop_app_length' by (symmetry; apply length_le_split).
  rewrite Hrt. split; [done|].
  destruct (_ =? 0).
  - rewrite take_app_length' by (symmetry; apply length_le_split). apply Hrt.
  - rewrite take_app_length' by done. done.
Qed.

(** C5.  For every slice [b], [Read(b)] terminates (as soon as the fuel
    covers one run of the loop per 32 bytes), returns [(len(b), nil)], and
    leaves in [b] the first [len(b)] bytes of the digests of the successive
    counter values: every position is written.  No run returns anything
    else. *)
Theorem Read_fills_b
    (sum256 : list byte -> list byte)
    (sum256_size : forall x, length (sum256 x) = 32%nat)
    (fuel : nat) (b : slice) (w : world) :
  wf w -> mu (Reader w) = false -> valid w b -> apart w b ->
  (blocks (len b) <= fuel)%nat ->
  (exists w',
     randReader_Read sum256 fuel b w = Ok (len b, None) w' /\
     length (contents w' b) = len b /\
     contents w' b =
       take (len b)
         (keystream sum256 (blocks (len b)) (contents w (entropy (Reader w)))) /\
     wf w' /\ mu (Reader w') = false) /\
  (forall fuel' r w',
     randReader_Read sum256 fuel' b w = Ok r w' -> r = (len b, None)).
Proof.
  intros Hwf Hmu Hvb Hap Hfuel. split.
  - destruct (randReader_Read_total sum256 sum256_size fuel b w
                Hwf Hmu Hvb Hap Hfuel) as (w' & Hrun & Hk & Hc & _).
    pose proof Hk as (A1 & A2 & _ & _ & A5 & _).
    exists w'. split; [done|].
    split; [apply valid_len_contents; done|].
    split; [rewrite (contents_entropy w Hwf); done|].
    split; [done | congruence].
  - intros fuel' r w' E.
    pose proof (randReader_Read_safe sum256 fuel' b w Hwf Hmu Hvb Hap) as H.
    rewrite E in H. apply H.
Qed.

Lemma Read_fills_b_witness :
  (exists w',
     randReader_Read demo_sum256 2 demo_b demo_world_b = Ok (len demo_b, None) w' /\
     length (contents w' demo_b) = len demo_b /\
     contents w' demo_b =
       take (len demo_b)
         (keystream demo_sum256 (blocks (len demo_b))
            (contents demo_world_b (entropy (Reader demo_world_b)))) /\
     wf w' /\ mu (Reader w') = false) /\
  (forall fuel' r w',
     randReader_Read demo_sum256 fuel' demo_b demo_world_b = Ok r w' ->
     r = (len demo_b, None)).
Proof.
  apply (Read_fills_b demo_sum256 demo_sum256_size 2 demo_b demo_world_b).
  - exact demo_world_b_wf.
  - reflexivity.
  - exact demo_b_valid.
  - exact demo_b_apart.
  - vm_compute. lia.
Defined.

Example Read_demo :
  value (randReader_Read demo_sum256 2 demo_b demo_world_b) = Some (40%nat, None) /\
  value (randReader_Read demo_sum256 0 nil_slice demo_world) = Some (0%nat, None).
Proof. vm_compute. done. Qed.

(** C6.  One run of the loop body of [Read] changes the entropy buffer by
    "increment the low 64-bit word; if it wraps to zero, increment the high
    word": the 128-bit little-endian counter in the first 16 bytes goes to
    its successor modulo [2^128] and the seed bytes [entropy[16:48]] stay.
    No call of [Read] changes the seed bytes. *)
Theorem Read_steps_counter_keeps_seed
    (sum256 : list byte -> list byte) (b : slice) (w : world) :
  wf w -> valid w b -> apart w b ->
  let e := entropy (Reader w) in
  (forall n, (n < len b)%nat ->
     exists n' w',
       Read_body sum256 b n w = Ok n' w' /\
       entropy (Reader w') = e /\
       length (contents w' e) = 48%nat /\
       drop 16 (contents w' e) = drop 16 (contents w e) /\
       le_combine (take 16 (contents w' e)) =
         (le_combine (take 16 (contents w e)) + 1) mod 2 ^ 128 /\
       le_combine (take 8 (contents w' e)) =
         (le_combine (take 8 (contents w e)) + 1) mod 2 ^ 64 /\
       le_combine (take 8 (drop 8 (contents w' e))) =
         if (le_combine (take 8 (contents w e)) + 1) mod 2 ^ 64 =? 0
         then (le_combine (take 8 (drop 8 (contents w e))) + 1) mod 2 ^ 64
         else le_combine (take 8 (drop 8 (contents w e)))) /\
  (mu (Reader w) = false ->
   forall fuel,
     match randReader_Read sum256 fuel b w with
     | Ok _ w' =>
         entropy (Reader w') = e /\
         drop 16 (contents w' e) = drop 16 (contents w e)
     | Panic _ => False
     | Spin => True
     end).
Proof.
  intros Hwf Hvb Hap e. subst e. pose proof Hwf as (_ & _ & _ & Harr & _).
  split.
  - intros n Hn.
    destruct (Read_body_spec sum256 w b n Hwf Hvb Hap Hn)
      as (w' & Hrun & A1 & _ & _ & A4 & _ & A6 & _).
    assert (contents w' (entropy (Reader w)) =
            incr_counter (contents w (entropy (Reader w)))) as Hc.
    { rewrite <- A4, (contents_entropy w' A1), A4.
      rewrite (contents_entropy w Hwf). done. }
    assert (16 <= length (contents w (entropy (Reader w))))%nat as Hlen
      by (rewrite (contents_entropy w Hwf); lia).
    destruct (incr_counter_spec _ Hlen) as (B1 & B2 & B3).
    destruct (incr_counter_words _ Hlen) as (B4 & B5).
    eexists _, w'. split; [exact Hrun|]. rewrite Hc.
    split; [done|]. split.
    { rewrite B1, (contents_entropy w Hwf). done. }
    do 3 (split; [done|]). done.
  - intros Hmu fuel.
    pose proof (randReader_Read_safe sum256 fuel b w Hwf Hmu Hvb Hap) as H.
    destruct (randReader_Read sum256 fuel b w) as [r w'| |]; [|done|done].
    destruct H as (_ & A1 & _ & _ & A4 & _ & A6 & _).
    split; [done|].
    rewrite <- A4, (contents_entropy w' A1), A4.
    rewrite (contents_entropy w Hwf). done.
Qed.

Lemma Read_steps_counter_keeps_seed_witness :
  let w := demo_world_b in
  let b := demo_b in
  let e := entropy (Reader w) in
  (forall n, (n < len b)%nat ->
     exists n' w',
       Read_body demo_sum256 b n w = Ok n' w' /\
       entropy (Reader w') = e /\
       length (contents w' e) = 48%nat /\
       drop 16 (contents w' e) = drop 16 (contents w e) /\
       le_combine (take 16 (contents w' e)) =
         (le_combine (take 16 (contents w e)) + 1) mod 2 ^ 128 /\
       le_combine (take 8 (contents w' e)) =
         (le_combine (take 8 (contents w e)) + 1) mod 2 ^ 64 /\
       le_combine (take 8 (drop 8 (contents w' e))) =
         if (le_combine (take 8 (contents w e)) + 1) mod 2 ^ 64 =? 0
         then (le_combine (take 8 (drop 8 (contents w e))) + 1) mod 2 ^ 64
         else le_combine (take 8 (drop 8 (contents w e)))) /\
  (mu (Reader w) = false ->
   forall fuel,
     match randReader_Read demo_sum256 fuel b w with
     | Ok _ w' =>
         entropy (Reader w') = e /\
         drop 16 (contents w' e) = drop 16 (contents w e)
     | Panic _ => False
     | Spin => True
     end).
Proof.
  apply (Read_steps_counter_keeps_seed demo_sum256 demo_b demo_world_b).
  - exact demo_world_b_wf.
  - exact demo_b_valid.
  - exact demo_b_apart.
Defined.

(** The carry into the high word, on a counter whose low word is all ones. *)
Example incr_counter_carry :
  incr_counter (repeat Byte.xff 8 ++ repeat Byte.x00 40) =
  repeat Byte.x00 8 ++ [Byte.x01] ++ repeat Byte.x00 39.
Proof. vm_compute. done. Qed.

(** C7 (as stated, refuted).  [Perm(2^45 + 1)] panics: [make([]int, n)]
    is asked for more than [maxAlloc] bytes. *)
Lemma Perm_beyond_allocation_limit_panics :
  Perm demo_sum256 20 (2 ^ 45 + 1) demo_world
  = Panic "makeslice: len out of range".
Proof. vm_compute. done. Qed.

(** C7 (amended).  For every [n >= 0] with [8 * n <= maxAlloc], [Perm(n)]
    returns, provided the generator does not keep producing draws that
    [Intn] rejects (no [T] draws in a row at or above [2^64 - n]; the fuel
    covers the [n - 1] iterations and [T] tries).  The slice it returns has
    length [n] and holds each integer of [[0, n)] exactly once, and so does
    every slice a run of [Perm(n)] returns.  [Perm] panics exactly when
    [make] does, for [n < 0] and for [8 * n > maxAlloc].  [Perm(0)] returns
    the empty slice and [Perm(1)] returns [[0]], both without touching the
    generator. *)
Theorem Perm_returns_permutation
    (sum256 : list byte -> list byte)
    (sum256_size : forall x, length (sum256 x) = 32%nat)
    (T fuel : nat) (n : Z) (w : world) :
  0 <= n -> 8 * n <= maxAlloc -> wf w -> mu (Reader w) = false ->
  (1 <= T)%nat ->
  (forall j, (j < Z.to_nat n * T)%nat ->
     exists k, (k < T)%nat /\
       draw sum256 (contents w (entropy (Reader w))) (j + k) < 2 ^ 64 - n) ->
  (Z.to_nat n + T <= fuel)%nat ->
  (exists m w',
     Perm sum256 fuel n w = Ok m w' /\
     length m = Z.to_nat n /\ m ≡ₚ seqZ 0 n /\
     NoDup m /\ (forall k, k ∈ m <-> 0 <= k < n) /\
     steady w w') /\
  (forall fuel' m w',
     Perm sum256 fuel' n w = Ok m w' ->
     length m = Z.to_nat n /\ m ≡ₚ seqZ 0 n /\
     NoDup m /\ (forall k, k ∈ m <-> 0 <= k < n)) /\
  (forall fuel' n',
     panics (Perm sum256 fuel' n' w) <-> n' < 0 \/ maxAlloc < 8 * n') /\
  (forall fuel', Perm sum256 fuel' 0 w = Ok [] w) /\
  (forall fuel', Perm sum256 fuel' 1 w = Ok [0] w).
Proof.
  intros Hn Hsz Hwf Hmu HT Hdraws Hfuel.
  rewrite (contents_entropy w Hwf) in Hdraws.
  assert (forall fuel' m w',
            Perm sum256 fuel' n w = Ok m w' ->
            length m = Z.to_nat n /\ m ≡ₚ seqZ 0 n /\
            NoDup m /\ (forall k, k ∈ m <-> 0 <= k < n) /\ steady w w')
    as Hpart.
  { intros fuel' m w' E.
    pose proof (Perm_safe sum256 fuel' n w Hwf Hmu) as H. rewrite E in H.
    destruct H as (_ & Hlen & Hperm & Hst).
    split; [done|]. split; [done|]. split; [|split; [|done]].
    - apply (NoDup_Permutation_proper _ _ Hperm), NoDup_seqZ.
    - intros k. etrans; [apply (elem_of_Permutation_proper k _ _ Hperm)|].
      rewrite elem_of_seqZ. lia. }
  split.
  { destruct (Perm_total sum256 sum256_size T fuel n w
                Hn Hsz Hwf Hmu HT Hdraws Hfuel) as (m & w' & E).
    exists m, w'. split; [exact E|]. apply (Hpart fuel m w' E). }
  split.
  { intros fuel' m w' E.
    destruct (Hpart fuel' m w' E) as (A1 & A2 & A3 & A4 & _). done. }
  split.
  { intros fuel' n'. split.
    - pose proof (Perm_safe sum256 fuel' n' w Hwf Hmu) as H.
      destruct (Perm sum256 fuel' n' w); simpl; (done || tauto).
    - intros Hout. unfold Perm, bind.
      rewrite (make_ints_panics n' w Hout). done. }
  split; intros fuel'; apply (Perm_trivial sum256 fuel'); lia.
Qed.

Lemma Perm_returns_permutation_witness :
  (exists m w',
     Perm demo_sum256 20 8 demo_world = Ok m w' /\
     length m = Z.to_nat 8 /\ m ≡ₚ seqZ 0 8 /\
     NoDup m /\ (forall k, k ∈ m <-> 0 <= k < 8) /\
     steady demo_world w') /\
  (forall fuel' m w',
     Perm demo_sum256 fuel' 8 demo_world = Ok m w' ->
     length m = Z.to_nat 8 /\ m ≡ₚ seqZ 0 8 /\
     NoDup m /\ (forall k, k ∈ m <-> 0 <= k < 8)) /\
  (forall fuel' n',
     panics (Perm demo_sum256 fuel' n' demo_world) <->
     n' < 0 \/ maxAlloc < 8 * n') /\
  (forall fuel', Perm demo_sum256 fuel' 0 demo_world = Ok [] demo_world) /\
  (forall fuel', Perm demo_sum256 fuel' 1 demo_world = Ok [0] demo_world).
Proof.
  apply (Perm_returns_permutation demo_sum256 demo_sum256_size 1 20 8
           demo_world).
  - lia.
  - unfold maxAlloc. lia.
  - exact demo_world_wf.
  - exact demo_world_unlocked.
  - lia.
  - intros j Hj. exists 0%nat. split; [lia|].
    do 8 (destruct j as [|j]; [vm_compute; reflexivity|]).
    simpl in Hj. lia.
  - simpl. lia.
Defined.

Example Perm_demo :
  value (Perm demo_sum256 20 8 demo_world) = Some [7; 2; 0; 1; 6; 3; 5; 4] /\
  value (Perm demo_sum256 20 5 demo_world) = Some [4; 2; 0; 1; 3] /\
  Perm demo_sum256 0 1 demo_world = Ok [0] demo_world /\
  Perm demo_sum256 0 0 demo_world = Ok [] demo_world.
Proof. vm_compute. done. Qed.

(** C8 (as stated, refuted).  [Bytes(-1)] panics: [make] rejects the
    negative length.  So does [Bytes(2^48 + 1)]: [make] rejects a length
    above [maxAlloc]. *)
Lemma Bytes_negative_count_panics :
  Bytes demo_sum256 1 (-1) demo_world = Panic "makeslice: len out of range" /\
  Bytes demo_sum256 1 (2 ^ 48 + 1) demo_world
  = Panic "makeslice: len out of range".
Proof. vm_compute. done. Qed.

(** C8 (amended).  For every count [n] with [0 <= n <= maxAlloc],
    [Bytes(n)] returns: the slice is freshly allocated (its array did not
    exist before the call), has length exactly [n], and is filled by one
    draw; [Bytes(0)] returns an empty slice.  [Bytes] panics exactly for the
    counts [make] rejects, [n < 0] and [n > maxAlloc]. *)
Theorem Bytes_returns_n_fresh_bytes
    (sum256 : list byte -> list byte)
    (sum256_size : forall x, length (sum256 x) = 32%nat)
    (fuel : nat) (n : Z) (w : world) :
  wf w -> mu (Reader w) = false -> 0 <= n <= maxAlloc ->
  (blocks (Z.to_nat n) <= fuel)%nat ->
  (exists b w',
     Bytes sum256 fuel n w = Ok b w' /\
     Z.of_nat (len b) = n /\
     length (contents w' b) = Z.to_nat n /\
     mem w !! ptr b = None /\ is_Some (mem w' !! ptr b) /\
     contents w' b =
       take (Z.to_nat n)
         (keystream sum256 (blocks (Z.to_nat n))
            (contents w (entropy (Reader w)))) /\
     (n = 0 -> contents w' b = []) /\
     wf w' /\ mu (Reader w') = false) /\
  (forall fuel' n',
     panics (Bytes sum256 fuel' n' w) <-> n' < 0 \/ maxAlloc < n').
Proof.
  intros Hwf Hmu Hn Hfuel. split.
  - destruct (Bytes_total sum256 sum256_size fuel n w Hwf Hmu Hn Hfuel)
      as (w' & Hrun & Hst & Hc).
    pose proof (Bytes_safe sum256 fuel n w Hwf Hmu) as Hs.
    rewrite Hrun in Hs. destruct Hs as (_ & _ & Hvb & _).
    pose proof (valid_len_contents w' _ Hvb) as Hlen. cbn [len] in Hlen.
    eexists _, w'. split; [exact Hrun|]. cbn [len ptr].
    split; [lia|]. split; [done|].
    split; [apply lookup_ge_None_2; lia|].
    split; [apply lookup_lt_is_Some_2, Hvb|].
    split; [rewrite (contents_entropy w Hwf); done|].
    split; [|split; apply Hst].
    intros ->. apply nil_length_inv. rewrite Hlen. done.
  - intros fuel' n'. split.
    + pose proof (Bytes_safe sum256 fuel' n' w Hwf Hmu) as H.
      destruct (Bytes sum256 fuel' n' w); simpl; (done || tauto).
    + intros Hout. unfold Bytes, bind. rewrite (make_panics n' w Hout). done.
Qed.

Lemma Bytes_returns_n_fresh_bytes_witness :
  (exists b w',
     Bytes demo_sum256 2 40 demo_world = Ok b w' /\
     Z.of_nat (len b) = 40 /\
     length (contents w' b) = Z.to_nat 40 /\
     mem demo_world !! ptr b = None /\ is_Some (mem w' !! ptr b) /\
     contents w' b =
       take (Z.to_nat 40)
         (keystream demo_sum256 (blocks (Z.to_nat 40))
            (contents demo_world (entropy (Reader demo_world)))) /\
     (40 = 0 -> contents w' b = []) /\
     wf w' /\ mu (Reader w') = false) /\
  (forall fuel' n',
     panics (Bytes demo_sum256 fuel' n' demo_world) <->
     n' < 0 \/ maxAlloc < n').
Proof.
  apply (Bytes_returns_n_fresh_bytes demo_sum256 demo_sum256_size 2 40 demo_world).
  - exact demo_world_wf.
  - exact demo_world_unlocked.
  - unfold maxAlloc. lia.
  - vm_compute. lia.
Defined.

Example Bytes_demo :
  value (Bytes demo_sum256 1 3 demo_world) = Some (mkSlice 3 0 3 3) /\
  value (Bytes demo_sum256 0 0 demo_world) = Some (mkSlice 3 0 0 0).
Proof. vm_compute. done. Qed.

(** C9.  [BigIntn(n)] panics for every [n <= 0]; for [n > 0], whenever it
    returns, the result is a (non-nil) integer in [[0, n)]. *)
Theorem BigIntn_fails_or_in_range
    (sum256 : list byte -> list byte) (fuel : nat) (n : Z) (w : world) :
  (n <= 0 -> panics (BigIntn sum256 fuel n w)) /\
  (0 < n ->
   forall r w', BigIntn sum256 fuel n w = Ok r w' ->
                exists v, r = Some v /\ 0 <= v < n).
Proof.
  split.
  - intros Hn. rewrite (BigIntn_nonpositive sum256 fuel n w Hn). done.
  - intros Hn r w' E.
    pose proof (BigIntn_spec sum256 fuel n w) as H. rewrite E in H.
    apply H.
Qed.

Example BigIntn_demo :
  value (BigIntn demo_sum256 50 1000 demo_world) = Some (Some 840) /\
  value (BigIntn demo_sum256 50 (2 ^ 70) demo_world)
    = Some (Some 437881532527141196616) /\
  value (BigIntn demo_sum256 1 1 demo_world) = Some (Some 0) /\
  BigIntn demo_sum256 50 0 demo_world
    = Panic "crypto/rand: argument to Int is <= 0" /\
  BigIntn demo_sum256 50 (-5) demo_world
    = Panic "crypto/rand: argument to Int is <= 0".
Proof. vm_compute. done. Qed.

(** C10.  For [n > 0] an [int] and [r] a [uint64], [r % uint64(n)] is the
    mathematical residue [r mod n], it is below [n <= 2^63 - 1], and the
    conversion to [int] returns it unchanged: non-negative, no overflow. *)
Theorem Intn_conversion_is_exact (n r : Z) :
  0 < n <= MaxInt -> 0 <= r < 2 ^ 64 ->
  r mod uint64 n = r mod n /\
  r mod uint64 n < n /\
  int (r mod uint64 n) = r mod n /\
  0 <= int (r mod uint64 n) < n.
Proof.
  intros Hn Hr. destruct (Intn_result n r Hn Hr) as [E Hm].
  rewrite E. rewrite uint64_of_pos by done. lia.
Qed.

Lemma Intn_conversion_is_exact_witness :
  (2 ^ 64 - 1) mod uint64 MaxInt = (2 ^ 64 - 1) mod MaxInt /\
  (2 ^ 64 - 1) mod uint64 MaxInt < MaxInt /\
  int ((2 ^ 64 - 1) mod uint64 MaxInt) = (2 ^ 64 - 1) mod MaxInt /\
  0 <= int ((2 ^ 64 - 1) mod uint64 MaxInt) < MaxInt.
Proof.
  apply (Intn_conversion_is_exact MaxInt (2 ^ 64 - 1)); unfold MaxInt; lia.
Defined.

(** Without the bound on [n] the conversion does overflow: [int] of a
    [uint64] above [2^63 - 1] is negative. *)
Example int_wraps : int (2 ^ 63) = - 2 ^ 63.
Proof. vm_compute. done. Qed.

(** * Further properties of the package *)

(** X1.  The initialiser of [Reader] panics with "crypto: no entropy
    available" exactly when the system source delivers fewer than 64 bytes.
    Otherwise it returns, and the reader is in the state the rest of the
    package relies on: [entropy] is the whole of a 48-byte array, [buf] is
    [nil], the mutex is free, and the hash state holds the first 64 bytes of
    the source and nothing else. *)
Theorem Reader_init_panics_iff_source_short
    (sum256 : list byte -> list byte) (src : list byte) :
  ((length src < 64)%nat ->
   Reader_init sum256 src boot = Panic "crypto: no entropy available") /\
  ((64 <= length src)%nat ->
   exists w,
     Reader_init sum256 src boot = Ok tt w /\
     wf w /\ mu (Reader w) = false /\
     buf (Reader w) = nil_slice /\
     h (Reader w) = take 64 src /\
     entropy (Reader w) = mkSlice 1 0 48 48 /\
     length (array_of w 1) = 48%nat).
Proof.
  split.
  - intros Hshort. unfold Reader_init, CopyN, modify, bind, ret, panic.
    cbn [snd]. destruct (Nat.ltb_spec (length src) 64); [done | lia].
  - intros Hlong. pose proof (Reader_init_spec sum256 src) as H.
    destruct (Reader_init sum256 src boot) as [[] w| |]; [|lia|done].
    destruct H as (_ & He & Ha & Hh & Hb & Hwf & Hmu).
    exists w. do 6 (split; [done|]). rewrite Ha. apply repeat_length.
Qed.

(** X2.  A call [Read(b)] runs the loop body [ceil(len(b) / 32)] times: the
    entropy buffer it leaves is the one before with the counter stepped that
    many times, so the 128-bit counter has advanced by exactly
    [ceil(len(b) / 32)] modulo [2^128]. *)
Theorem Read_advances_counter_by_blocks
    (sum256 : list byte -> list byte)
    (sum256_size : forall x, length (sum256 x) = 32%nat)
    (fuel : nat) (b : slice) (w : world) :
  wf w -> mu (Reader w) = false -> valid w b -> apart w b ->
  (blocks (len b) <= fuel)%nat ->
  exists w',
    randReader_Read sum256 fuel b w = Ok (len b, None) w' /\
    entropy (Reader w') = entropy (Reader w) /\
    contents w' (entropy (Reader w)) =
      Nat.iter (blocks (len b)) incr_counter (contents w (entropy (Reader w))) /\
    le_combine (take 16 (contents w' (entropy (Reader w)))) =
      (le_combine (take 16 (contents w (entropy (Reader w))))
       + Z.of_nat ((len b + 31) / 32)) mod 2 ^ 128.
Proof.
  intros Hwf Hmu Hvb Hap Hfuel.
  destruct (randReader_Read_full sum256 sum256_size fuel b w
              Hwf Hmu Hvb Hap Hfuel) as (w' & Hrun & Hk & _ & _ & Hit).
  pose proof Hk as (Hwf' & _ & _ & He & _).
  exists w'. split; [done|]. split; [done|].
  assert (contents w' (entropy (Reader w)) =
          Nat.iter (blocks (len b)) incr_counter
            (contents w (entropy (Reader w)))) as Hc.
  { rewrite <- He, (contents_entropy w' Hwf'), He, (contents_entropy w Hwf).
    exact Hit. }
  split; [exact Hc|]. rewrite Hc.
  apply iter_incr_counter.
  rewrite (contents_entropy w Hwf). destruct Hwf as (_ & _ & _ & -> & _). lia.
Qed.

Lemma Read_advances_counter_by_blocks_witness :
  exists w',
    randReader_Read demo_sum256 2 demo_b demo_world_b = Ok (len demo_b, None) w' /\
    entropy (Reader w') = entropy (Reader demo_world_b) /\
    contents w' (entropy (Reader demo_world_b)) =
      Nat.iter (blocks (len demo_b)) incr_counter
        (contents demo_world_b (entropy (Reader demo_world_b))) /\
    le_combine (take 16 (contents w' (entropy (Reader demo_world_b)))) =
      (le_combine (take 16 (contents demo_world_b (entropy (Reader demo_world_b))))
       + Z.of_nat ((len demo_b + 31) / 32)) mod 2 ^ 128.
Proof.
  apply (Read_advances_counter_by_blocks demo_sum256 demo_sum256_size 2
           demo_b demo_world_b).
  - exact demo_world_b_wf.
  - reflexivity.
  - exact demo_b_valid.
  - exact demo_b_apart.
  - vm_compute. lia.
Defined.

(** X3.  [Read(b)] writes nowhere but into [b[0:len(b)]] and the reader's
    own [entropy] and [buf]: the bytes of [b]'s array before and after that
    window are as they were, and every other slice that shares no array with
    [b] or the reader shows the same bytes after the call. *)
Theorem Read_writes_only_into_b
    (sum256 : list byte -> list byte) (fuel : nat) (b : slice) (w : world) :
  wf w -> mu (Reader w) = false -> valid w b -> apart w b ->
  match randReader_Read sum256 fuel b w with
  | Ok _ w' =>
      take (off b) (array_of w' (ptr b)) = take (off b) (array_of w (ptr b)) /\
      drop (off b + len b) (array_of w' (ptr b)) =
        drop (off b + len b) (array_of w (ptr b)) /\
      (forall s, valid w s -> apart w s -> ptr s <> ptr b ->
                 contents w' s = contents w s)
  | Panic _ => False
  | Spin => True
  end.
Proof.
  intros Hwf Hmu Hvb Hap.
  pose proof (randReader_Read_framed sum256 fuel b w Hwf Hmu Hvb Hap) as Hfr.
  pose proof (randReader_Read_safe sum256 fuel b w Hwf Hmu Hvb Hap) as Hs.
  destruct (randReader_Read sum256 fuel b w) as [r w'| |]; [|done|done].
  destruct Hfr as [_ Hfr]. pose proof Hfr as (_ & F2 & F3 & _).
  split; [done|]. split; [done|].
  intros s Hvs Has Hsb. eapply framed_contents; eassumption.
Qed.

Lemma Read_writes_only_into_b_witness :
  match randReader_Read demo_sum256 2 demo_b demo_world_b with
  | Ok _ w' =>
      take (off demo_b) (array_of w' (ptr demo_b)) =
        take (off demo_b) (array_of demo_world_b (ptr demo_b)) /\
      drop (off demo_b + len demo_b) (array_of w' (ptr demo_b)) =
        drop (off demo_b + len demo_b) (array_of demo_world_b (ptr demo_b)) /\
      (forall s, valid demo_world_b s -> apart demo_world_b s ->
                 ptr s <> ptr demo_b ->
                 contents w' s = contents demo_world_b s)
  | Panic _ => False
  | Spin => True
  end.
Proof.
  apply (Read_writes_only_into_b demo_sum256 2 demo_b demo_world_b).
  - exact demo_world_b_wf.
  - reflexivity.
  - exact demo_b_valid.
  - exact demo_b_apart.
Defined.

(** X4.  [Read] of an empty slice ([nil] included) is a no-op: it returns
    [(0, nil)] and leaves the whole state, counter included, as it was. *)
Theorem Read_of_empty_slice_is_noop
    (sum256 : list byte -> list byte) (fuel : nat) (b : slice) (w : world) :
  mu (Reader w) = false -> len b = 0%nat ->
  randReader_Read sum256 fuel b w = Ok (0%nat, None) w.
Proof.
  intros Hmu Hlen. unfold randReader_Read, mu_Lock, mu_Unlock, bind.
  rewrite Hmu.
  assert (forall w0, Read_loop sum256 fuel b 0 w0 = Ok 0%nat w0) as ->.
  { intros w0. destruct fuel; cbn [Read_loop]; rewrite Hlen; done. }
  cbn [mu Reader with_Reader set_mu]. unfold ret.
  destruct w as [m [e hs bf mu0]]. cbn in Hmu. subst mu0. done.
Qed.

Lemma Read_of_empty_slice_is_noop_witness :
  randReader_Read demo_sum256 0 nil_slice demo_world = Ok (0%nat, None) demo_world.
Proof.
  apply (Read_of_empty_slice_is_noop demo_sum256 0 nil_slice demo_world);
    reflexivity.
Defined.

(** X5.  Two calls of [Bytes] in a row, each for a count that [make]
    accepts: the second result starts at the digest of the next counter
    value, so what was left of the last digest of the first call is thrown
    away; the second call does not disturb the bytes of the first result;
    and when the first count is a multiple of 32 the two results together
    are the first [n1 + n2] bytes of the keystream, with no gap. *)
Theorem Bytes_twice_continues_keystream
    (sum256 : list byte -> list byte)
    (sum256_size : forall x, length (sum256 x) = 32%nat)
    (fuel : nat) (n1 n2 : Z) (w : world) :
  wf w -> mu (Reader w) = false ->
  0 <= n1 <= maxAlloc -> 0 <= n2 <= maxAlloc ->
  (blocks (Z.to_nat n1) <= fuel)%nat -> (blocks (Z.to_nat n2) <= fuel)%nat ->
  exists b1 w1 b2 w2,
    Bytes sum256 fuel n1 w = Ok b1 w1 /\
    Bytes sum256 fuel n2 w1 = Ok b2 w2 /\
    ptr b1 <> ptr b2 /\
    contents w2 b1 = contents w1 b1 /\
    contents w2 b2 =
      take (Z.to_nat n2)
        (keystream sum256 (blocks (Z.to_nat n2))
           (Nat.iter (blocks (Z.to_nat n1)) incr_counter
              (contents w (entropy (Reader w))))) /\
    (n1 mod 32 = 0 ->
     contents w1 b1 ++ contents w2 b2 =
       take (Z.to_nat (n1 + n2))
         (keystream sum256 (blocks (Z.to_nat (n1 + n2)))
            (contents w (entropy (Reader w))))).
Proof.
  intros Hwf Hmu Hin1 Hin2 Hf1 Hf2.
  pose proof Hin1 as [Hn1 _]. pose proof Hin2 as [Hn2 _].
  destruct (Bytes_full sum256 sum256_size fuel n1 w Hwf Hmu Hin1 Hf1)
    as (w1 & Hrun1 & Hst1 & Hvb1 & Hap1 & Hc1 & Hit1 & _).
  pose proof Hst1 as (Hwf1 & Hmu1 & He1 & _ & Hlm1).
  destruct (Bytes_full sum256 sum256_size fuel n2 w1 Hwf1 Hmu1 Hin2 Hf2)
    as (w2 & Hrun2 & _ & _ & _ & Hc2 & _ & Hfr2).
  rewrite He1, Hit1 in Hc2. rewrite <- (contents_entropy w Hwf) in Hc1, Hc2.
  eexists _, w1, _, w2. split; [exact Hrun1|]. split; [exact Hrun2|].
  assert (ptr (mkSlice (length (mem w)) 0 (Z.to_nat n1) (Z.to_nat n1))
          < length (mem w1))%nat as Hp1 by apply Hvb1.
  split; [cbn [ptr] in *; lia|].
  split; [apply Hfr2; done|]. split; [exact Hc2|].
  intros Hmod. rewrite Hc1, Hc2.
  set (ent := contents w (entropy (Reader w))).
  assert (exists j : nat, Z.to_nat n1 = (32 * j)%nat) as [j Hj].
  { exists (Z.to_nat (n1 / 32)).
    pose proof (Z.div_mod n1 32 ltac:(lia)) as Hdm.
    pose proof (Z.div_pos n1 32 Hn1 ltac:(lia)). lia. }
  assert (blocks (Z.to_nat n1) = j) as Hb1.
  { unfold blocks. rewrite Hj.
    replace (32 * j + 31)%nat with (j * 32 + 31)%nat by lia.
    rewrite Nat.div_add_l, (Nat.div_small 31 32) by lia. lia. }
  assert (blocks (Z.to_nat (n1 + n2)) = (j + blocks (Z.to_nat n2))%nat) as Hb12.
  { unfold blocks. rewrite Z2Nat.inj_add, Hj by lia.
    replace (32 * j + Z.to_nat n2 + 31)%nat
      with (j * 32 + (Z.to_nat n2 + 31))%nat by lia.
    rewrite Nat.div_add_l by lia. done. }
  rewrite Hb1, Hb12, keystream_app.
  rewrite (take_ge (keystream sum256 j ent))
    by (rewrite (length_keystream sum256 sum256_size); lia).
  rewrite take_app, (length_keystream sum256 sum256_size).
  rewrite (take_ge (keystream sum256 j ent))
    by (rewrite (length_keystream sum256 sum256_size); lia).
  do 2 f_equal. lia.
Qed.

Lemma Bytes_twice_continues_keystream_witness :
  exists b1 w1 b2 w2,
    Bytes demo_sum256 2 32 demo_world = Ok b1 w1 /\
    Bytes demo_sum256 2 8 w1 = Ok b2 w2 /\
    ptr b1 <> ptr b2 /\
    contents w2 b1 = contents w1 b1 /\
    contents w2 b2 =
      take (Z.to_nat 8)
        (keystream demo_sum256 (blocks (Z.to_nat 8))
           (Nat.iter (blocks (Z.to_nat 32)) incr_counter
              (contents demo_world (entropy (Reader demo_world))))) /\
    (32 mod 32 = 0 ->
     contents w1 b1 ++ contents w2 b2 =
       take (Z.to_nat (32 + 8))
         (keystream demo_sum256 (blocks (Z.to_nat (32 + 8)))
            (contents demo_world (entropy (Reader demo_world))))).
Proof.
  apply (Bytes_twice_continues_keystream demo_sum256 demo_sum256_size
           2 32 8 demo_world).
  - exact demo_world_wf.
  - exact demo_world_unlocked.
  - unfold maxAlloc. lia.
  - unfold maxAlloc. lia.
  - vm_compute. lia.
  - vm_compute. lia.
Defined.

(** X6.  [Intn(n)] is rejection sampling on the keystream: each try draws
    the first 8 bytes of the next digest as a little-endian word, and the
    call returns the residue modulo [n] of the first draw below [max],
    leaving the counter one step past that draw.  With fuel for [fuel + 1]
    tries it fails to return exactly when all of them are rejected. *)
Theorem Intn_returns_first_accepted_draw
    (sum256 : list byte -> list byte)
    (sum256_size : forall x, length (sum256 x) = 32%nat)
    (fuel : nat) (n : Z) (w : world) :
  0 < n <= MaxInt -> wf w -> mu (Reader w) = false -> (1 <= fuel)%nat ->
  match first_accepted sum256 (S fuel) (Intn_max n)
          (contents w (entropy (Reader w))) with
  | Some (r, ent') =>
      exists w',
        Intn sum256 fuel n w = Ok (r mod n) w' /\
        r < Intn_max n /\
        contents w' (entropy (Reader w')) = ent' /\
        wf w' /\ mu (Reader w') = false
  | None => Intn sum256 fuel n w = Spin
  end.
Proof.
  intros Hn Hwf Hmu Hfuel.
  pose proof (Intn_first_accepted sum256 sum256_size fuel n w Hn Hwf Hmu Hfuel)
    as H.
  rewrite (contents_entropy w Hwf).
  destruct (first_accepted sum256 (S fuel) (Intn_max n)
              (array_of w (ptr (entropy (Reader w))))) as [[r ent']|] eqn:E;
    [|exact H].
  destruct H as (w' & Hrun & He & Hst).
  pose proof Hst as (Hwf' & Hmu' & Hes & _).
  exists w'. split; [done|]. split.
  { clear - E. revert E.
    generalize (array_of w (ptr (entropy (Reader w)))) as ent.
    induction (S fuel) as [|t IH]; intros ent; cbn [first_accepted]; [done|].
    destruct (Z.leb_spec (Intn_max n)
                (le_combine (take 8 (sum256 (incr_counter ent)))));
      [apply IH|]. intros [= <- _]. done. }
  split; [rewrite (contents_entropy w' Hwf'), Hes; done|]. done.
Qed.

Lemma Intn_returns_first_accepted_draw_witness :
  match first_accepted demo_sum256 (S 4) (Intn_max 7)
          (contents demo_world (entropy (Reader demo_world))) with
  | Some (r, ent') =>
      exists w',
        Intn demo_sum256 4 7 demo_world = Ok (r mod 7) w' /\
        r < Intn_max 7 /\
        contents w' (entropy (Reader w')) = ent' /\
        wf w' /\ mu (Reader w') = false
  | None => Intn demo_sum256 4 7 demo_world = Spin
  end.
Proof.
  apply (Intn_returns_first_accepted_draw demo_sum256 demo_sum256_size
           4 7 demo_world).
  - unfold MaxInt. lia.
  - exact demo_world_wf.
  - exact demo_world_unlocked.
  - lia.
Defined.

(** X7.  For every positive [int] [n], [max] is at least the value it has
    at [n = MaxUint64 / 3 + 1], where it is [2 * n]: the accepted range
    always covers more than two thirds of the 64-bit words, so a try is
    rejected with probability below one third.  The value of [max] at
    [n = MaxUint64 / 4 + 1], which the comment in [Intn] names as the
    minimum, is larger. *)
Theorem Intn_max_at_least_two_thirds (n : Z) :
  0 < n <= MaxInt ->
  Intn_max (MaxUint64 / 3 + 1) <= Intn_max n /\
  2 * 2 ^ 64 < 3 * Intn_max n /\
  Intn_max (MaxUint64 / 3 + 1) = 2 * (MaxUint64 / 3 + 1) /\
  Intn_max (MaxUint64 / 3 + 1) < Intn_max (MaxUint64 / 4 + 1).
Proof.
  intros Hn.
  assert (Intn_max (MaxUint64 / 3 + 1) = 12297829382473034412) as E0
    by (vm_compute; done).
  assert (12297829382473034412 <= Intn_max n) as Hmin.
  { rewrite (Intn_max_div n Hn).
    pose proof (Z.div_mod MaxUint64 n ltac:(lia)) as Hdm.
    pose proof (Z.mod_pos_bound MaxUint64 n ltac:(lia)) as Hm.
    set (q := MaxUint64 / n) in *.
    assert (2 <= q) as Hq.
    { apply Z.div_le_lower_bound; [lia|]. unfold MaxUint64, MaxInt in *. lia. }
    unfold MaxUint64, MaxInt in *.
    destruct (Z.eq_dec q 2) as [E | Hne].
    - rewrite E in *. lia.
    - assert (3 * n <= n * q) by nia. lia. }
  split; [lia|]. split; [lia|]. split; [|rewrite E0]; vm_compute; done.
Qed.

Lemma Intn_max_at_least_two_thirds_witness :
  Intn_max (MaxUint64 / 3 + 1) <= Intn_max 7 /\
  2 * 2 ^ 64 < 3 * Intn_max 7 /\
  Intn_max (MaxUint64 / 3 + 1) = 2 * (MaxUint64 / 3 + 1) /\
  Intn_max (MaxUint64 / 3 + 1) < Intn_max (MaxUint64 / 4 + 1).
Proof.
  apply (Intn_max_at_least_two_thirds 7). unfold MaxInt. lia.
Defined.

(** X8.  [Perm(n)] panics exactly when its [make] does, for [n < 0] and
    for [8 * n > maxAlloc], with the message of [makeslice] and before any
    draw: the reader is not touched.  Whenever it returns, the reader is
    left well formed and unlocked, with its seed unchanged. *)
Theorem Perm_panics_only_in_make
    (sum256 : list byte -> list byte) (fuel : nat) (n : Z) (w : world) :
  wf w -> mu (Reader w) = false ->
  (panics (Perm sum256 fuel n w) <-> n < 0 \/ maxAlloc < 8 * n) /\
  (n < 0 \/ maxAlloc < 8 * n ->
   Perm sum256 fuel n w = Panic "makeslice: len out of range") /\
  (forall m w', Perm sum256 fuel n w = Ok m w' -> steady w w').
Proof.
  intros Hwf Hmu.
  assert (n < 0 \/ maxAlloc < 8 * n ->
          Perm sum256 fuel n w = Panic "makeslice: len out of range")
    as Hout.
  { intros Hn. unfold Perm, bind. rewrite (make_ints_panics n w Hn). done. }
  pose proof (Perm_safe sum256 fuel n w Hwf Hmu) as H.
  split; [split|split; [exact Hout|]].
  - destruct (Perm sum256 fuel n w); simpl; (done || tauto).
  - intros Hn. rewrite (Hout Hn). done.
  - intros m w' E. rewrite E in H. apply H.
Qed.

Lemma Perm_panics_only_in_make_witness :
  (panics (Perm demo_sum256 20 5 demo_world) <-> 5 < 0 \/ maxAlloc < 8 * 5) /\
  (5 < 0 \/ maxAlloc < 8 * 5 ->
   Perm demo_sum256 20 5 demo_world = Panic "makeslice: len out of range") /\
  (forall m w', Perm demo_sum256 20 5 demo_world = Ok m w' ->
                steady demo_world w').
Proof.
  apply (Perm_panics_only_in_make demo_sum256 20 5 demo_world).
  - exact demo_world_wf.
  - exact demo_world_unlocked.
Defined.

(** X9.  [Bytes] and [Intn] keep the reader usable: whenever one of them
    returns, the reader is well formed and unlocked again, it still uses the
    same entropy slice, the seed bytes are the ones before the call, and no
    array of the store has gone.  So calls can follow one another. *)
Theorem Bytes_Intn_keep_reader
    (sum256 : list byte -> list byte) (fuel : nat) (n : Z) (w : world) :
  is_int n -> wf w -> mu (Reader w) = false ->
  (forall b w', Bytes sum256 fuel n w = Ok b w' ->
     wf w' /\ mu (Reader w') = false /\
     entropy (Reader w') = entropy (Reader w) /\
     drop 16 (contents w' (entropy (Reader w'))) =
       drop 16 (contents w (entropy (Reader w))) /\
     (length (mem w) <= length (mem w'))%nat) /\
  (forall v w', Intn sum256 fuel n w = Ok v w' ->
     wf w' /\ mu (Reader w') = false /\
     entropy (Reader w') = entropy (Reader w) /\
     drop 16 (contents w' (entropy (Reader w'))) =
       drop 16 (contents w (entropy (Reader w))) /\
     (length (mem w) <= length (mem w'))%nat).
Proof.
  intros Hn Hwf Hmu.
  assert (forall w', steady w w' ->
     wf w' /\ mu (Reader w') = false /\
     entropy (Reader w') = entropy (Reader w) /\
     drop 16 (contents w' (entropy (Reader w'))) =
       drop 16 (contents w (entropy (Reader w))) /\
     (length (mem w) <= length (mem w'))%nat) as Hst.
  { intros w' (A1 & A2 & A3 & A4 & A5).
    do 3 (split; [done|]). split; [|done].
    rewrite (contents_entropy w' A1), (contents_entropy w Hwf), A3. done. }
  split.
  - intros b w' E. apply Hst.
    pose proof (Bytes_safe sum256 fuel n w Hwf Hmu) as H.
    rewrite E in H. apply H.
  - intros v w' E. apply Hst.
    pose proof (Intn_safe sum256 fuel n w Hn Hwf Hmu) as H.
    rewrite E in H. apply H.
Qed.

Lemma Bytes_Intn_keep_reader_witness :
  (forall b w', Bytes demo_sum256 4 7 demo_world = Ok b w' ->
     wf w' /\ mu (Reader w') = false /\
     entropy (Reader w') = entropy (Reader demo_world) /\
     drop 16 (contents w' (entropy (Reader w'))) =
       drop 16 (contents demo_world (entropy (Reader demo_world))) /\
     (length (mem demo_world) <= length (mem w'))%nat) /\
  (forall v w', Intn demo_sum256 4 7 demo_world = Ok v w' ->
     wf w' /\ mu (Reader w') = false /\
     entropy (Reader w') = entropy (Reader demo_world) /\
     drop 16 (contents w' (entropy (Reader w'))) =
       drop 16 (contents demo_world (entropy (Reader demo_world))) /\
     (length (mem demo_world) <= length (mem w'))%nat).
Proof.
  apply (Bytes_Intn_keep_reader demo_sum256 4 7 demo_world).
  - unfold is_int, MinInt, MaxInt. lia.
  - exact demo_world_wf.
  - exact demo_world_unlocked.
Defined.

(** X10.  What the package returns does not depend on the entropy it was
    given: after the initialiser has run on any source of at least 64 bytes,
    [Bytes(n)], for a count [n] that [make] accepts, returns the first [n]
    bytes of the keystream of the all-zero 48-byte buffer. *)
Theorem Bytes_after_init_ignores_entropy
    (sum256 : list byte -> list byte)
    (sum256_size : forall x, length (sum256 x) = 32%nat)
    (src : list byte) (fuel : nat) (n : Z) :
  (64 <= length src)%nat -> 0 <= n <= maxAlloc ->
  (blocks (Z.to_nat n) <= fuel)%nat ->
  exists w b w',
    Reader_init sum256 src boot = Ok tt w /\
    Bytes sum256 fuel n w = Ok b w' /\
    contents w' b =
      take (Z.to_nat n)
        (keystream sum256 (blocks (Z.to_nat n)) (repeat Byte.x00 48)).
Proof.
  intros Hsrc Hn Hfuel.
  pose proof (Reader_init_spec sum256 src) as H.
  destruct (Reader_init sum256 src boot) as [[] w| |]; [|lia|done].
  destruct H as (_ & He & Ha & _ & _ & Hwf & Hmu).
  destruct (Bytes_full sum256 sum256_size fuel n w Hwf Hmu Hn Hfuel)
    as (w' & Hrun & _ & _ & _ & Hc & _).
  rewrite He in Hc. cbn [ptr] in Hc. rewrite Ha in Hc.
  eexists w, _, w'. split; [done|]. split; [exact Hrun | exact Hc].
Qed.

Lemma Bytes_after_init_ignores_entropy_witness :
  exists w b w',
    Reader_init demo_sum256 demo_src boot = Ok tt w /\
    Bytes demo_sum256 2 40 w = Ok b w' /\
    contents w' b =
      take (Z.to_nat 40)
        (keystream demo_sum256 (blocks (Z.to_nat 40)) (repeat Byte.x00 48)).
Proof.
  apply (Bytes_after_init_ignores_entropy demo_sum256 demo_sum256_size
           demo_src 2 40).
  - vm_compute. lia.
  - unfold maxAlloc. lia.
  - vm_compute. lia.
Defined.

(** X11.  The loop body never hashes the same buffer twice within [2^128]
    runs: after [j] and after [k] steps of the counter, [j < k < j + 2^128],
    the counters differ and so do the buffers handed to the hash. *)
Theorem counter_steps_never_repeat (ent : list byte) (j k : nat) :
  (16 <= length ent)%nat -> (j < k)%nat ->
  Z.of_nat k - Z.of_nat j < 2 ^ 128 ->
  le_combine (take 16 (Nat.iter j incr_counter ent)) <>
    le_combine (take 16 (Nat.iter k incr_counter ent)) /\
  Nat.iter j incr_counter ent <> Nat.iter k incr_counter ent.
Proof.
  intros Hlen Hjk Hgap.
  assert (Nat.iter j incr_counter ent <> Nat.iter k incr_counter ent) as Hne
    by (apply incr_counter_iter_inj; done).
  split; [|exact Hne].
  intros E. apply Hne.
  destruct (iter_incr_counter j ent Hlen) as (J1 & J2 & _).
  destruct (iter_incr_counter k ent Hlen) as (K1 & K2 & _).
  apply entropy_ext; [lia | congruence | congruence | exact E].
Qed.

Lemma counter_steps_never_repeat_witness :
  le_combine (take 16 (Nat.iter 1 incr_counter (repeat Byte.xff 48))) <>
    le_combine (take 16 (Nat.iter 3 incr_counter (repeat Byte.xff 48))) /\
  Nat.iter 1 incr_counter (repeat Byte.xff 48) <>
    Nat.iter 3 incr_counter (repeat Byte.xff 48).
Proof.
  apply (counter_steps_never_repeat (repeat Byte.xff 48) 1 3).
  - rewrite repeat_length. lia.
  - lia.
  - vm_compute. done.
Defined.
